(** * DOSBox-core libretro glue: disk control, core options, thread switch

  A shallow embedding of
    - [src/libretro/src/disk_control.cpp]  (module [DiskControl]),
    - [src/libretro/CoreOptions.h]         (module [CoreOptions]),
    - [src/libretro/src/emu_thread.h]      (module [EmuThread]),
  together with the properties stated about them. *)

From Stdlib Require Import ZArith Lia Ascii String.
From stdpp Require Import base option list gmap strings.

Local Open Scope Z_scope.

(** ** Machine integers *)

(** [unsigned int] is 32 bits wide on every libretro target; conversions to it
  wrap around. *)
Definition UINT_MOD : Z := 2 ^ 32.

Definition to_uint (z : Z) : Z := z mod UINT_MOD.

Definition is_uint (z : Z) : Prop := 0 <= z < UINT_MOD.

(** ** Paths ([std::filesystem::path], generic POSIX format) *)

Module Path.

Definition path := string.

(** The part of [s] after the last occurrence of [c], when [c] occurs. *)
Fixpoint after_last (c : ascii) (s : string) : option string :=
  match s with
  | EmptyString => None
  | String a rest =>
      match after_last c rest with
      | Some t => Some t
      | None => if Ascii.eqb a c then Some rest else None
      end
  end.

(** [path::filename()]: the component after the last directory separator. *)
Definition filename (p : path) : string :=
  match after_last "/"%char p with
  | Some f => f
  | None => p
  end.

(** [path::extension()]: from the rightmost period of the filename, where a
    leading period does not count and "." and ".." have no extension. *)
Definition extension (p : path) : string :=
  let f := filename p in
  if String.eqb f "." || String.eqb f ".." then EmptyString
  else match f with
       | EmptyString => EmptyString
       | String _ rest =>
           match after_last "."%char rest with
           | Some e => String "."%char e
           | None => EmptyString
           end
       end.

End Path.

(** ** Disk control ([disk_control.cpp]) *)

Module DiskControl.
Import Path.

(** *** Collaborators

    The emulator side (drive manager, DOS tables, MSCDEX, the file system and
    the logger) is defined elsewhere.  Calls into it are recorded in order, and
    what it answers is read from an oracle record. *)

Inductive level := Debug | Warn | Error.

Inductive arg :=
| ArgStr (s : string)
| ArgUInt (n : Z)
| ArgChar (c : ascii)
| ArgMsg (key : string).

Record log_entry := Log { log_level : level; log_fmt : string; log_args : list arg }.

Inductive drive_obj :=
| fatDrive (p : path)
| isoDrive (letter : ascii) (p : path) (media_id : Z).

Inductive cd_interface := CDROM_USE_SDL.

Inductive call :=
| New (d : drive_obj)
| Delete (d : drive_obj)
| MSCDEX_SetCDInterface (intf : cd_interface) (num : Z)
| AppendDisk (drive : Z) (disk : drive_obj)
| InitializeDrive (drive : Z)
| mem_writeb_mediaid (offset : Z) (val : Z)
| dos_dta_tempdta
| EmptyCache (slot : nat)
| UnmountDrive (drive : Z)
| Drives_assign_null (drive : Z)
| CycleDisks (drive : Z) (notify : bool).

Record env := Env {
  SecureMode : bool;                      (* control->SecureMode() *)
  file_size : path -> option Z;           (* None: std::filesystem::file_size throws *)
  created_successfully : path -> bool;    (* fatDrive::created_successfully *)
  isoDrive_error : ascii -> path -> Z;    (* error code set by the isoDrive constructor *)
  DOS_DRIVES : nat;                       (* number of slots of Drives[] *)
  Drives : list call -> Z -> bool         (* Drives[i] != nullptr after the calls so far *)
}.

(** *** State ([namespace state]) and the world around it *)

Record world := World {
  images : list path;
  current_index : Z;
  is_ejected : bool;
  host : env;
  calls : list call;
  log : list log_entry
}.

Definition registry (w : world) : list path * Z * bool :=
  (images w, current_index w, is_ejected w).

Definition set_images (l : list path) (w : world) : world :=
  World l (current_index w) (is_ejected w) (host w) (calls w) (log w).

Definition set_current_index (i : Z) (w : world) : world :=
  World (images w) i (is_ejected w) (host w) (calls w) (log w).

Definition set_is_ejected (b : bool) (w : world) : world :=
  World (images w) (current_index w) b (host w) (calls w) (log w).

Definition add_call (c : call) (w : world) : world :=
  World (images w) (current_index w) (is_ejected w) (host w) (calls w ++ [c]) (log w).

Definition add_log (e : log_entry) (w : world) : world :=
  World (images w) (current_index w) (is_ejected w) (host w) (calls w) (log w ++ [e]).

(** *** Computations: state passing with C++ exceptions *)

Inductive exn := out_of_range.

Inductive outcome (A : Type) :=
| Return (a : A) (w : world)
| Throw (e : exn) (w : world)
| Undefined.
Arguments Return {A} a w.
Arguments Throw {A} e w.
Arguments Undefined {A}.

Definition M (A : Type) : Type := world -> outcome A.

#[global] Instance M_ret : MRet M := fun A a w => Return a w.

#[global] Instance M_bind : MBind M := fun A B f m w =>
  match m w with
  | Return a w' => f a w'
  | Throw e w' => Throw e w'
  | Undefined => Undefined
  end.

Definition gets {A} (f : world -> A) : M A := fun w => Return (f w) w.
Definition modify (f : world -> world) : M unit := fun w => Return tt (f w).
Definition throw {A} (e : exn) : M A := fun w => Throw e w.
Definition undefined {A} : M A := fun _ => Undefined.

Definition logDebug (fmt : string) (args : list arg) : M unit :=
  modify (add_log (Log Debug fmt args)).
Definition logWarn (fmt : string) (args : list arg) : M unit :=
  modify (add_log (Log Warn fmt args)).
Definition logError (fmt : string) (args : list arg) : M unit :=
  modify (add_log (Log Error fmt args)).

Definition do_call (c : call) : M unit := modify (add_call c).

(** [state::images.at(i)]: bounds-checked read. *)
Definition images_at (i : Z) : M path := fun w =>
  match images w !! Z.to_nat i with
  | Some p => Return p w
  | None => Throw out_of_range w
  end.

(** [state::images.at(i) = p]: bounds-checked write. *)
Definition images_at_assign (i : Z) (p : path) : M unit := fun w =>
  match images w !! Z.to_nat i with
  | Some _ => Return tt (set_images (<[Z.to_nat i := p]> (images w)) w)
  | None => Throw out_of_range w
  end.

Definition drive_index (drive_letter : ascii) : Z :=
  Z.of_N (N_of_ascii drive_letter) - Z.of_N (N_of_ascii "A").

(** *** The callbacks ([namespace cb]) *)

Definition get_num_images (w : world) : Z :=
  to_uint (Z.of_nat (length (images w))).

Definition get_eject_state (w : world) : bool := is_ejected w.

Definition get_image_index (w : world) : Z := current_index w.

Definition set_image_index (index : Z) : M bool :=
  n ← gets get_num_images;
  if n <=? index then mret false
  else
    modify (set_current_index index);;
    logDebug "Disk index {}." [ArgUInt index];;
    mret true.

Definition add_image_index : M bool :=
  modify (fun w => set_images (images w ++ [EmptyString]) w);;
  n ← gets get_num_images;
  logDebug "Disk count {}." [ArgUInt n];;
  mret true.

Definition replace_image_index (index : Z) (info : option path) : M bool :=
  n ← gets get_num_images;
  if n <=? index then
    logWarn "Frontend tried to replace invalid disk index {}." [ArgUInt index];;
    mret false
  else
    match info with
    | None =>
        modify (fun w => set_images (delete (Z.to_nat index) (images w)) w);;
        cur ← gets get_image_index;
        n' ← gets get_num_images;
        (if (n' <=? cur) && (0 <? n')
         then _ ← set_image_index (to_uint (n' - 1)); mret tt
         else mret tt);;
        mret true
    | Some p =>
        images_at_assign index p;;
        mret true
    end.

(** [strncpy(label, src, len)]: the [len] bytes written to the buffer. *)
Definition strncpy (src : string) (len : nat) : list ascii :=
  take len (list_ascii_of_string src ++ replicate len zero).

Definition get_image_label (index : Z) (len : nat) : M (bool * list ascii) :=
  n ← gets get_num_images;
  if n <? index then mret (false, [])
  else
    p ← images_at index;
    let label := strncpy (filename p) len in
    match len with
    | O => undefined                    (* label[len - 1] with len = 0 *)
    | S k => mret (true, <[k := zero]> label)
    end.

(** *** Mounting and unmounting *)

Section Mounting.

(** [lower_case] of [util.h]. *)
Variable lower_case : string -> string.

Definition mount_floppy_image (drive_letter : ascii) (p : path) : M bool :=
  let media_id := 240 (* 0xF0 *) in
  h ← gets host;
  match file_size h p with
  | None =>
      logError "Failed to detect image file size: {}." [ArgMsg "e.what()"];;
      mret false
  | Some sz =>
      if 2880 * 1024 <? sz then
        logError "Mounting HDD images is currently not supported." [];;
        mret false
      else
        do_call (New (fatDrive p));;
        if negb (created_successfully h p) then
          logError "Failed to mount drive {} as {}." [ArgChar drive_letter; ArgStr p];;
          do_call (Delete (fatDrive p));;
          mret false
        else
          do_call (AppendDisk (drive_index drive_letter) (fatDrive p));;
          do_call (InitializeDrive (drive_index drive_letter));;
          do_call (mem_writeb_mediaid (drive_index drive_letter * 9) media_id);;
          do_call dos_dta_tempdta;;
          logDebug "Drive {} is mounted as {}." [ArgChar drive_letter; ArgStr p];;
          mret true
  end.

Definition mount_cd_image (drive_letter : ascii) (p : path) : M bool :=
  let media_id := 248 (* 0xF8 *) in
  let iso := isoDrive drive_letter p media_id in
  let fail (key : string) : M bool :=
    logError "{}" [ArgMsg key];;
    do_call (Delete iso);;
    mret false in
  do_call (MSCDEX_SetCDInterface CDROM_USE_SDL (-1));;
  h ← gets host;
  do_call (New iso);;
  match isoDrive_error h drive_letter p with
  | 0 =>
      do_call (AppendDisk (drive_index drive_letter) iso);;
      do_call (InitializeDrive (drive_index drive_letter));;
      do_call (mem_writeb_mediaid (drive_index drive_letter * 9) media_id);;
      mret true
  | 1 => fail "MSCDEX_ERROR_MULTIPLE_CDROMS"
  | 2 => fail "MSCDEX_ERROR_NOT_SUPPORTED"
  | 3 => fail "MSCDEX_ERROR_OPEN"
  | 4 => fail "MSCDEX_TOO_MANY_DRIVES"
  | 5 => fail "MSCDEX_LIMITED_SUPPORT"
  | 6 => fail "MSCDEX_INVALID_FILEFORMAT"
  | _ => fail "MSCDEX_UNKNOWN_ERROR"
  end.

(** [for (auto* drive : Drives) if (drive) drive->EmptyCache();] *)
Fixpoint empty_caches (slots : list nat) : M unit :=
  match slots with
  | [] => mret tt
  | i :: rest =>
      h ← gets host;
      cs ← gets calls;
      (if Drives h cs (Z.of_nat i) then do_call (EmptyCache i) else mret tt);;
      empty_caches rest
  end.

(** The part of [disk_control::mount] after the extension has been
    dispatched on. *)
Definition mount_finish (drive_letter : ascii) (image : path) (mounted_ok : bool)
  : M bool :=
  if negb mounted_ok then mret false
  else
    h ← gets host;
    empty_caches (seq 0 (DOS_DRIVES h));;
    do_call (CycleDisks (drive_index drive_letter) true);;
    logDebug "Drive {} is mounted as {}." [ArgChar drive_letter; ArgStr image];;
    n ← gets get_num_images;
    (if n =? 0
     then _ ← add_image_index; images_at_assign 0 image
     else mret tt);;
    mret mounted_ok.

Definition mount (image : path) : M bool :=
  h ← gets host;
  if SecureMode h then
    logError "Mounting is not permitted in secure mode." [];;
    mret false
  else
    let extension := lower_case (extension image) in
    if String.eqb extension ".img" then
      logDebug "Mounting disk as floppy {}." [ArgStr image];;
      mounted_ok ← mount_floppy_image "A" image;
      mount_finish "A" image mounted_ok
    else if String.eqb extension ".iso" || String.eqb extension ".cue" then
      logDebug "Mounting disk as cdrom {}." [ArgStr image];;
      mounted_ok ← mount_cd_image "D" image;
      mount_finish "D" image mounted_ok
    else
      logError "Unsupported disk image {}." [ArgStr (Path.extension image)];;
      mret false.

(** The part of [unmount] after the drive letter has been chosen. *)
Definition unmount_drive (drive_letter : ascii) : M bool :=
  h ← gets host;
  cs ← gets calls;
  (if Drives h cs (drive_index drive_letter)
   then do_call (UnmountDrive (drive_index drive_letter))
   else mret tt);;
  do_call (Drives_assign_null (drive_index drive_letter));;
  do_call (CycleDisks (drive_index drive_letter) true);;
  mret true.

Definition unmount (p : path) : M bool :=
  n ← gets get_num_images;
  if n =? 0 then
    logWarn "No disks added to index." [];;
    mret false
  else
    let extension := lower_case (extension p) in
    if String.eqb extension ".img" then
      logDebug "Unmounting floppy {}." [ArgStr p];;
      unmount_drive "A"
    else if String.eqb extension ".iso" || String.eqb extension ".cue" then
      logDebug "Umounting cdrom {}." [ArgStr p];;
      unmount_drive "D"
    else
      logError "Unsupported disk image {}." [ArgStr (Path.extension p)];;
      mret false.

Definition set_eject_state (ejected : bool) : M bool :=
  modify (set_is_ejected ejected);;
  logDebug "Tray {}." [ArgStr (if ejected then "open" else "close")];;
  n ← gets get_num_images;
  if n =? 0 then mret true
  else if ejected then
    i ← gets get_image_index;
    p ← images_at i;
    unmount p
  else
    i ← gets get_image_index;
    p ← images_at i;
    mount p.

(** *** Sequences of frontend requests *)

Inductive request :=
| ReqAddImageIndex
| ReqSetImageIndex (index : Z)
| ReqReplaceImageIndex (index : Z) (info : option path)
| ReqSetEjectState (ejected : bool)
| ReqMount (image : path)
| ReqHostChange (h : env).

(** One request; an [unsigned int] parameter receives its argument converted. *)
Definition serve (r : request) : M bool :=
  match r with
  | ReqAddImageIndex => add_image_index
  | ReqSetImageIndex i => set_image_index (to_uint i)
  | ReqReplaceImageIndex i info => replace_image_index (to_uint i) info
  | ReqSetEjectState e => set_eject_state e
  | ReqMount image => mount image
  | ReqHostChange h =>
      modify (fun w => World (images w) (current_index w) (is_ejected w) h (calls w) (log w));;
      mret true
  end.

Fixpoint serve_all (rs : list request) : M unit :=
  match rs with
  | [] => mret tt
  | r :: rest => _ ← serve r; serve_all rest
  end.

End Mounting.

(** The registry at start-up: no image, index 0, tray closed. *)
Definition initial (h : env) : world := World [] 0 false h [] [].

(** ASCII lower-casing, an instance of [lower_case] for examples. *)
Definition ascii_lower (c : ascii) : ascii :=
  let n := N_of_ascii c in
  if ((65 <=? n) && (n <=? 90))%N then ascii_of_N (n + 32) else c.

Fixpoint ascii_lower_case (s : string) : string :=
  match s with
  | EmptyString => EmptyString
  | String c rest => String (ascii_lower c) (ascii_lower_case rest)
  end.

(** *** Vocabulary for stating what a call did *)

(** The world after further collaborator calls [d] and log lines [ls]. *)
Definition grown (d : list call) (ls : list log_entry) (w : world) : world :=
  World (images w) (current_index w) (is_ejected w) (host w)
        (calls w ++ d) (log w ++ ls).

Definition is_floppy (o : drive_obj) : Prop :=
  match o with fatDrive _ => True | isoDrive _ _ _ => False end.

Definition is_optical (drive_letter : ascii) (o : drive_obj) : Prop :=
  match o with fatDrive _ => False | isoDrive l _ _ => l = drive_letter end.

(** The call [c] concerns no drive slot other than [d] and no drive object
    outside [kind]; flushing the caches, the DTA and the CD interface are not
    tied to a slot. *)
Definition on_drive (d : Z) (kind : drive_obj -> Prop) (c : call) : Prop :=
  match c with
  | New o | Delete o => kind o
  | AppendDisk i o => i = d /\ kind o
  | InitializeDrive i | UnmountDrive i | Drives_assign_null i | CycleDisks i _ => i = d
  | mem_writeb_mediaid off _ => off = d * 9
  | MSCDEX_SetCDInterface _ _ | dos_dta_tempdta | EmptyCache _ => True
  end.

Definition is_error (e : log_entry) : Prop := log_level e = Error.

(** The current index designates an image whenever there is one, and is 0
    when there is none. *)
Definition index_invariant (w : world) : Prop :=
  (0 < Z.of_nat (length (images w)) -> current_index w < Z.of_nat (length (images w))) /\
  (length (images w) = 0%nat -> current_index w = 0).

(** The world after [set_image_index(index)] accepted [index]. *)
Definition selected (index : Z) (w : world) : world :=
  add_log (Log Debug "Disk index {}." [ArgUInt index]) (set_current_index index w).

Definition invalid_index (index : Z) : log_entry :=
  Log Warn "Frontend tried to replace invalid disk index {}." [ArgUInt index].

(** The world after [replace_image_index(index, nullptr)] removed the entry at
    [index]: the current index is pulled back to the last image when it has
    fallen out of range and an image remains. *)
Definition after_removal (index : Z) (w : world) : world :=
  let w1 := set_images (delete (Z.to_nat index) (images w)) w in
  if (get_num_images w1 <=? current_index w1) && (0 <? get_num_images w1)
  then selected (get_num_images w1 - 1) w1
  else w1.

(** The image list after a mount that returned [ok]: the mounted image
    becomes the first entry of an empty registry. *)
Definition images_after_mount (image : path) (ok : bool) (w : world) : list path :=
  if ok && (get_num_images w =? 0)
  then <[0%nat := image]> (images w ++ [EmptyString])
  else images w.

(** What [mount_floppy_image] returns: the size can be read, is at most
    2880 KiB, and the FAT drive object reports success. *)
Definition floppy_mountable (h : env) (p : path) : bool :=
  match file_size h p with
  | Some sz => negb (2880 * 1024 <? sz) && created_successfully h p
  | None => false
  end.

(** What [mount_cd_image] returns: the ISO drive object reports error 0. *)
Definition optical_mountable (h : env) (drive_letter : ascii) (p : path) : bool :=
  isoDrive_error h drive_letter p =? 0.

Definition secure_refusal : log_entry :=
  Log Error "Mounting is not permitted in secure mode." [].

Definition unsupported (p : path) : log_entry :=
  Log Error "Unsupported disk image {}." [ArgStr (extension p)].

(** The current index is an [unsigned int] and satisfies [index_invariant]. *)
Definition well_formed (w : world) : Prop :=
  is_uint (current_index w) /\ index_invariant w.

(** *** Example worlds *)

(** A host in which nothing can be mounted. *)
Definition bare_host (secure : bool) : env :=
  Env secure (fun _ => None) (fun _ => false) (fun _ _ => 1) 26%nat (fun _ _ => false).

(** A host with small, well-formed images and drive A: occupied. *)
Definition good_host (secure : bool) : env :=
  Env secure (fun _ => Some 1474560) (fun _ => true) (fun _ _ => 0) 26%nat
      (fun _ i => i =? 0).

Definition one_image : world :=
  World ["/roms/a.img"]%string 0 false (bare_host false) [] [].

Definition two_images : world :=
  World ["/roms/a.img"; "/roms/b.iso"]%string 0 false (bare_host false) [] [].

(** Tray open, secure mode on. *)
Definition tray_open_secure : world :=
  World ["/roms/a.img"]%string 0 true (bare_host true) [] [].

(** One floppy image in drive A:, secure mode on. *)
Definition secure_one_image : world :=
  World ["/roms/a.img"]%string 0 false (good_host true) [] [].

(** Mount a floppy, add a slot, select it, remove the first image, open the
    tray. *)
Definition swap_session : list request :=
  [ReqMount "/roms/GAME.IMG"; ReqAddImageIndex; ReqSetImageIndex 1;
   ReqReplaceImageIndex 0 None; ReqSetEjectState true].

(** *** Vocabulary for further properties *)

(** The drive objects that a run of calls constructed, handed over to the
    drive manager, and destroyed. *)
Definition constructed (d : list call) : list drive_obj :=
  omap (fun c => match c with New o => Some o | _ => None end) d.

Definition appended (d : list call) : list drive_obj :=
  omap (fun c => match c with AppendDisk _ o => Some o | _ => None end) d.

Definition destroyed (d : list call) : list drive_obj :=
  omap (fun c => match c with Delete o => Some o | _ => None end) d.

(** The calls of [mount_floppy_image], read off its branches. *)
Definition floppy_calls (h : env) (drive_letter : ascii) (p : path) : list call :=
  match file_size h p with
  | None => []
  | Some sz =>
      if 2880 * 1024 <? sz then []
      else if created_successfully h p then
        [New (fatDrive p);
         AppendDisk (drive_index drive_letter) (fatDrive p);
         InitializeDrive (drive_index drive_letter);
         mem_writeb_mediaid (drive_index drive_letter * 9) 240;
         dos_dta_tempdta]
      else [New (fatDrive p); Delete (fatDrive p)]
  end.

(** The calls of [mount_cd_image], read off its branches. *)
Definition cd_calls (h : env) (drive_letter : ascii) (p : path) : list call :=
  let iso := isoDrive drive_letter p 248 in
  MSCDEX_SetCDInterface CDROM_USE_SDL (-1) :: New iso ::
  (if isoDrive_error h drive_letter p =? 0
   then [AppendDisk (drive_index drive_letter) iso;
         InitializeDrive (drive_index drive_letter);
         mem_writeb_mediaid (drive_index drive_letter * 9) 248]
   else [Delete iso]).

(** The calls of the second half of [disk_control::mount], where [flushed]
    are the slots whose cache was emptied. *)
Definition finish_calls (drive_letter : ascii) (ok : bool) (flushed : list nat)
  : list call :=
  if ok then (EmptyCache <$> flushed) ++ [CycleDisks (drive_index drive_letter) true]
  else [].

(** The calls of [unmount] once the drive letter is known, [occupied] telling
    whether the slot held a drive. *)
Definition unmount_calls (drive_letter : ascii) (occupied : bool) : list call :=
  (if occupied then [UnmountDrive (drive_index drive_letter)] else []) ++
  [Drives_assign_null (drive_index drive_letter);
   CycleDisks (drive_index drive_letter) true].

Definition no_disks : log_entry := Log Warn "No disks added to index." [].

(** The world a computation ends in, whether it returns or throws. *)
Definition final_world {A} (o : outcome A) : option world :=
  match o with
  | Return _ w => Some w
  | Throw _ w => Some w
  | Undefined => None
  end.

Definition three_images : world :=
  World ["/roms/a.img"; "/roms/b.iso"; "/roms/c.img"]%string 1 false
        (good_host false) [] [].

(** What [disk_control::mount] decides before it touches the registry: the
    drive letter, whether the image mounts, and the calls of the image-specific
    half; [None] when it declines at once (secure mode, unsupported
    extension). *)
Definition mount_plan (lower_case : string -> string) (h : env) (image : path)
  : option (ascii * bool * list call) :=
  if SecureMode h then None
  else
    let ext := lower_case (extension image) in
    if String.eqb ext ".img"
    then Some ("A"%char, floppy_mountable h image, floppy_calls h "A" image)
    else if String.eqb ext ".iso" || String.eqb ext ".cue"
    then Some ("D"%char, optical_mountable h "D" image, cd_calls h "D" image)
    else None.

Definition plan_ok (plan : option (ascii * bool * list call)) : bool :=
  match plan with Some (_, ok, _) => ok | None => false end.

Definition plan_calls (plan : option (ascii * bool * list call)) (flushed : list nat)
  : list call :=
  match plan with
  | Some (l, ok, d) => d ++ finish_calls l ok flushed
  | None => []
  end.

(** Calls that only select the CD interface or construct and destroy a drive
    object: nothing of the drive table, the media-id table, the DTA or the
    caches is touched. *)
Definition construct_only (c : call) : Prop :=
  match c with
  | New _ | Delete _ | MSCDEX_SetCDInterface _ _ => True
  | _ => False
  end.

(** A host whose images have a plausible size but do not mount. *)
Definition broken_host : env :=
  Env false (fun _ => Some 1474560) (fun _ => false) (fun _ _ => 3) 26%nat
      (fun _ _ => false).

(** A host whose images all have [sz] bytes and mount. *)
Definition sized_host (sz : Z) : env :=
  Env false (fun _ => Some sz) (fun _ => true) (fun _ _ => 0) 26%nat (fun _ _ => false).

(** The extensions [mount] and [unmount] know, after lower-casing. *)
Definition supported (ext : string) : Prop :=
  ext = ".img"%string \/ ext = ".iso"%string \/ ext = ".cue"%string.

(** The drive letter that goes with a supported extension. *)
Definition letter_of (ext : string) : ascii :=
  if String.eqb ext ".img" then "A"%char else "D"%char.

Definition tray (ejected : bool) : log_entry :=
  Log Debug "Tray {}." [ArgStr (if ejected then "open" else "close")].

(** Two images, a CD image selected, drive D: occupied, tray closed. *)
Definition cd_in_drive : world :=
  World ["/roms/a.img"; "/roms/b.iso"]%string 1 false
        (Env false (fun _ => Some 1474560) (fun _ => true) (fun _ _ => 0) 26%nat
             (fun _ i => i =? 3)) [] [].

(** Two mountable images, tray closed. *)
Definition two_images_good : world :=
  World ["/roms/a.img"; "/roms/b.iso"]%string 0 false (good_host false) [] [].

End DiskControl.

(** ** Core options registry ([CoreOptions.h]) *)

Module CoreOptions.

(** A [CoreOptionDefinition*]: null, or the address of an element of
    [options_and_categories]. *)
Inductive ptr := nullptr | Ptr (addr : nat).

#[global] Instance ptr_eq_dec : EqDecision ptr.
Proof. solve_decision. Defined.

Section Registry.

(** Types declared in other headers. *)
Variables CoreOptionDefinition CoreOptionCategory CoreOptionValue : Type.
Variables retro_core_option_v2_category retro_core_option_v2_definition : Type.
Variable retro_environment_t : Type.

Record t := Make {
  options_and_categories : list (CoreOptionDefinition + CoreOptionCategory);
  options_map_ : gmap string ptr;
  retro_categories_v2 : list retro_core_option_v2_category;
  retro_options_v2 : list retro_core_option_v2_definition;
  categorized_option_descriptions_ : list string;
  key_prefix_ : string;
  env_cb_ : retro_environment_t;
  invalid_value_ : CoreOptionValue
}.

(** [*p] for a pointer into [options_and_categories]. *)
Definition deref (self : t) (p : ptr) : Datatypes.option CoreOptionDefinition :=
  match p with
  | nullptr => None
  | Ptr a =>
      match options_and_categories self !! a with
      | Some (inl d) => Some d
      | _ => None
      end
  end.

Definition setEnvironmentCallback (cb : retro_environment_t) (self : t) : t :=
  Make (options_and_categories self) (options_map_ self) (retro_categories_v2 self)
       (retro_options_v2 self) (categorized_option_descriptions_ self)
       (key_prefix_ self) cb (invalid_value_ self).

(** Every pointer kept in [options_map_] designates a definition held in
    [options_and_categories]: the class invariant the constructor, defined in
    [CoreOptions.cpp], is taken to establish. *)
Definition valid (self : t) : Prop :=
  forall k p, options_map_ self !! k = Some p -> is_Some (deref self p).

(** [options_map_.find(key)]; [None] stands for [options_map_.end()]. *)
Definition find (key : string) (self : t) : Datatypes.option ptr :=
  options_map_ self !! key.

(** The const overload: the object cannot change, the result is the pointer. *)
Definition option_const (key : string) (self : t) : ptr :=
  let it := find key self in
  match it with
  | Some second => second
  | None => nullptr
  end.

(** The non-const overload: the result and the object after the call. *)
Definition option (key : string) (self : t) : ptr * t :=
  let it := find key self in
  (match it with
   | Some second => second
   | None => nullptr
   end, self).

End Registry.

Arguments Make {_ _ _ _ _ _} _ _ _ _ _ _ _ _.
Arguments options_and_categories {_ _ _ _ _ _} _.
Arguments options_map_ {_ _ _ _ _ _} _.
Arguments deref {_ _ _ _ _ _} _ _.
Arguments find {_ _ _ _ _ _} _ _.
Arguments valid {_ _ _ _ _ _} _.
Arguments option_const {_ _ _ _ _ _} _ _.
Arguments option {_ _ _ _ _ _} _ _.

(** A registry with the two options of the header's usage example; definitions
    and categories are represented by their names. *)
Definition example_registry : t string string unit unit unit unit :=
  Make [inl "core_name_overclock"; inr "timing"; inl "core_name_frameskip"]%string
       (<["overclock"%string := Ptr 0]> (<["frameskip"%string := Ptr 2]> ∅))
       [] [] [] "core_name_"%string tt tt.

End CoreOptions.

(** ** Thread switch ([emu_thread.h]) *)

Module EmuThread.

(** Thrown as an exception for canceling the emulation thread; [GenericError]
    stands for every other exception. *)
Inductive signal := EmuThreadCanceled | GenericError.

Inductive side := Host | Emulation.

#[global] Instance side_eq_dec : EqDecision side.
Proof. solve_decision. Defined.

Inductive run_state := HostOwns | EmulationOwns.

Inductive sync_mode := SpinWait | ConditionWait.

(** What a thread is doing. *)
Inductive activity :=
| Running                     (* outside switchThread, executing its own logic *)
| Blocked (how : sync_mode)   (* inside switchThread, waiting for its turn *)
| Unwinding (sig : signal)    (* a signal travels up the thread's call stack *)
| Exited.                     (* the thread's entry function has returned *)

(** Modelled from the spec: [emu_thread.cpp], which defines [switchThread],
    [useSpinlockThreadSync] and the emulation thread's entry function, is
    missing; the header only declares them.  The coordinator holds the
    run-state, the sync mode, the cancellation token, what each of the two
    threads is doing, and the signals the entry function has caught.  Accesses
    to the shared flags are taken to be sequentially consistent. *)
Record coordinator := Coordinator {
  run : run_state;
  mode : sync_mode;
  cancel : bool;
  host : activity;
  emu : activity;
  observed : list signal
}.

Definition owns (s : side) : run_state :=
  match s with Host => HostOwns | Emulation => EmulationOwns end.

Definition other (s : side) : side :=
  match s with Host => Emulation | Emulation => Host end.

Definition activity_of (s : side) (c : coordinator) : activity :=
  match s with Host => host c | Emulation => emu c end.

Definition set_activity (s : side) (a : activity) (c : coordinator) : coordinator :=
  match s with
  | Host => Coordinator (run c) (mode c) (cancel c) a (emu c) (observed c)
  | Emulation => Coordinator (run c) (mode c) (cancel c) (host c) a (observed c)
  end.

Definition set_run (r : run_state) (c : coordinator) : coordinator :=
  Coordinator r (mode c) (cancel c) (host c) (emu c) (observed c).

Definition run_state_eqb (a b : run_state) : bool :=
  match a, b with
  | HostOwns, HostOwns | EmulationOwns, EmulationOwns => true
  | _, _ => false
  end.

Definition is_emulation (s : side) : bool :=
  match s with Emulation => true | Host => false end.

(** Modelled from the spec: the body of [switchThread()] is missing (the header
    only declares it).  This is its first half, called by a thread that is
    running: ownership is flipped to the other side, the other side is
    signalled, and the caller starts to wait with the strategy that is selected
    at that moment. *)
Definition switchThread_yield (s : side) (c : coordinator) : option coordinator :=
  match activity_of s c with
  | Running => Some (set_activity s (Blocked (mode c)) (set_run (owns (other s)) c))
  | _ => None
  end.

(** Modelled from the spec: the wait loop of [switchThread()] is missing.  This
    is one check of the wait predicate that finds it false, the caller keeps
    waiting (a failed poll of the spin variant, a spurious wake-up of the block
    variant). *)
Definition switchThread_poll (s : side) (c : coordinator) : option coordinator :=
  match activity_of s c with
  | Blocked _ => if run_state_eqb (run c) (owns s) then None else Some c
  | _ => None
  end.

(** Modelled from the spec: the end of [switchThread()] is missing.  The waiter
    finds that ownership has come back.  On the emulation side the cancellation
    token is checked at this moment, and the cancellation signal is raised in
    place of a normal return. *)
Definition switchThread_wake (s : side) (c : coordinator) : option coordinator :=
  match activity_of s c with
  | Blocked _ =>
      if run_state_eqb (run c) (owns s) then
        if is_emulation s && cancel c
        then Some (set_activity s (Unwinding EmuThreadCanceled) c)
        else Some (set_activity s Running c)
      else None
  | _ => None
  end.

(** Modelled from the spec: the body of [useSpinlockThreadSync(use_spinlock)]
    is missing; it selects the wait strategy and is callable from either
    thread at any time. *)
Definition useSpinlockThreadSync (use_spinlock : bool) (c : coordinator) : coordinator :=
  Coordinator (run c) (if use_spinlock then SpinWait else ConditionWait)
              (cancel c) (host c) (emu c) (observed c).

(** Modelled from the spec: the shutdown code is missing; the session owner
    sets the single-shot cancellation token. *)
Definition request_cancel (c : coordinator) : coordinator :=
  Coordinator (run c) (mode c) true (host c) (emu c) (observed c).

(** Modelled from the spec: the emulation thread's entry function is missing;
    it catches the signal that reached it and returns. *)
Definition entry_catch (c : coordinator) : option coordinator :=
  match emu c with
  | Unwinding sig =>
      Some (Coordinator (run c) (mode c) (cancel c) (host c) Exited (observed c ++ [sig]))
  | _ => None
  end.

(** What can happen next in a session. *)
Inductive event :=
| Yield (s : side)
| Poll (s : side)
| Wake (s : side)
| UseSpinlock (use_spinlock : bool)
| RequestCancel
| Catch.

(** One event; [None] when the event cannot happen in [c]. *)
Definition step (e : event) (c : coordinator) : option coordinator :=
  match e with
  | Yield s => switchThread_yield s c
  | Poll s => switchThread_poll s c
  | Wake s => switchThread_wake s c
  | UseSpinlock b => Some (useSpinlockThreadSync b c)
  | RequestCancel => Some (request_cancel c)
  | Catch => entry_catch c
  end.

Fixpoint exec (tr : list event) (c : coordinator) : option coordinator :=
  match tr with
  | [] => Some c
  | e :: rest =>
      match step e c with
      | Some c' => exec rest c'
      | None => None
      end
  end.

(** Modelled from the spec: the start-up code is missing; the session starts
    with the host owning execution and the emulation thread blocked until the
    first handoff. *)
Definition session_start (m : sync_mode) : coordinator :=
  Coordinator HostOwns m false Running (Blocked m) [].

(** The sides that called [switchThread()], in order. *)
Fixpoint yields (tr : list event) : list side :=
  match tr with
  | [] => []
  | Yield s :: rest => s :: yields rest
  | _ :: rest => yields rest
  end.

(** The sides whose [switchThread()] found its turn had come, in order. *)
Fixpoint wakes (tr : list event) : list side :=
  match tr with
  | [] => []
  | Wake s :: rest => s :: wakes rest
  | _ :: rest => wakes rest
  end.

(** [first], [other first], [first], ... ([n] entries). *)
Fixpoint alternating (first : side) (n : nat) : list side :=
  match n with
  | O => []
  | S k => first :: alternating (other first) k
  end.

(** The side whose turn it is. *)
Definition owner (c : coordinator) : side :=
  match run c with HostOwns => Host | EmulationOwns => Emulation end.

(** The side whose turn it is can go on: it is running, or its wait is over. *)
Definition can_proceed (c : coordinator) : Prop :=
  activity_of (owner c) c = Running \/
  exists c', step (Wake (owner c)) c = Some c'.

(** The side that owns execution after [n] calls of [switchThread()], which is
    the side that makes the next call. *)
Definition turn (n : nat) : side := if Nat.even n then Host else Emulation.

Definition blocked (a : activity) : Prop := exists m, a = Blocked m.

(** Where a session can be after [k] calls of [switchThread()] of which [j]
    have been taken up by the other side. *)
Inductive phase (k j : nat) (c : coordinator) : Prop :=
| InTurn :
    j = k ->
    activity_of (turn k) c = Running ->
    blocked (activity_of (other (turn k)) c) ->
    observed c = [] ->
    phase k j c
| InHandoff :
    k = S j ->
    blocked (host c) -> blocked (emu c) ->
    observed c = [] ->
    phase k j c
| InUnwind :
    j = k -> turn k = Emulation -> cancel c = true ->
    blocked (host c) -> emu c = Unwinding EmuThreadCanceled ->
    observed c = [] ->
    phase k j c
| InExit :
    j = k -> turn k = Emulation -> cancel c = true ->
    blocked (host c) -> emu c = Exited ->
    observed c = [EmuThreadCanceled] ->
    phase k j c.

Definition invariant (tr : list event) (c : coordinator) : Prop :=
  yields tr = alternating Host (length (yields tr)) /\
  wakes tr = alternating Emulation (length (wakes tr)) /\
  run c = owns (turn (length (yields tr))) /\
  phase (length (yields tr)) (length (wakes tr)) c.

(** [n] handoffs in a row, the first one made by [s]. *)
Fixpoint ping_pong (s : side) (n : nat) : list event :=
  match n with
  | O => []
  | S k => Yield s :: Wake (other s) :: ping_pong (other s) k
  end.

(** One frame with the wait strategy switched in the middle. *)
Definition one_frame : list event :=
  [Yield Host; Poll Host; Wake Emulation; UseSpinlock true; Yield Emulation;
   Poll Emulation; Wake Host].

(** One frame, then the session owner requests cancellation and performs the
    final handoff. *)
Definition cancel_session : list event :=
  one_frame ++ [RequestCancel; Yield Host; Wake Emulation].

(** The same session once the entry function has caught the signal. *)
Definition shutdown_session : list event := cancel_session ++ [Catch].

End EmuThread.

(** * Properties *)

(** ** Machine integers *)

Lemma to_uint_range z : is_uint (to_uint z).
Proof. unfold is_uint, to_uint, UINT_MOD. apply Z.mod_pos_bound. lia. Qed.

Lemma to_uint_id z : is_uint z -> to_uint z = z.
Proof. unfold is_uint, to_uint. intros H. apply Z.mod_small. exact H. Qed.

Lemma to_uint_le z : 0 <= z -> to_uint z <= z.
Proof. unfold to_uint, UINT_MOD. intros H. apply Z.mod_le; lia. Qed.

(** ** Paths *)

Module PathFacts.
Import Path.

Example extension_img : extension "/roms/GAME.img" = ".img"%string.
Proof. reflexivity. Qed.

Example extension_hidden : extension "/roms/.img" = EmptyString.
Proof. reflexivity. Qed.

Example extension_dotdot : extension "/roms/.." = EmptyString.
Proof. reflexivity. Qed.

Example filename_nested : filename "/a.d/b.tar.gz" = "b.tar.gz"%string.
Proof. reflexivity. Qed.

Example extension_trailing_dot : extension "/roms/game." = "."%string.
Proof. reflexivity. Qed.

Example lower_case_extension :
  DiskControl.ascii_lower_case (extension "/roms/GAME.CUE") = ".cue"%string.
Proof. reflexivity. Qed.

End PathFacts.

(** ** Disk control *)

Module DiskControlFacts.
Import Path DiskControl.

(** Unfolds the monadic plumbing so that a computation applied to a world
    reduces to its outcome. *)
Ltac run_M :=
  unfold set_image_index, add_image_index, logDebug, logWarn, logError, do_call,
    images_at, images_at_assign, gets, modify, throw, undefined;
  unfold mbind, M_bind, mret, M_ret; cbn beta iota.

Lemma get_num_images_bound w : 0 <= get_num_images w < UINT_MOD.
Proof. apply to_uint_range. Qed.

Lemma get_num_images_le_length w : get_num_images w <= Z.of_nat (length (images w)).
Proof. apply to_uint_le. lia. Qed.

Lemma get_num_images_small w :
  Z.of_nat (length (images w)) < UINT_MOD ->
  get_num_images w = Z.of_nat (length (images w)).
Proof. intros H. apply to_uint_id. split; [lia | exact H]. Qed.

(** [set_image_index] in one equation. *)
Lemma set_image_index_run (w : world) (index : Z) :
  set_image_index index w =
  if get_num_images w <=? index then Return false w
  else Return true (selected index w).
Proof. run_M. destruct (get_num_images w <=? index); reflexivity. Qed.

(** C3. [set_image_index(i)] returns false and leaves the world as it is for
    every index at or beyond the number of images; for every index below the
    number of images it makes [i] the current index, keeps the image list and
    the tray flag, and returns true. *)
Theorem set_image_index_spec (w : world) (index : Z) :
  (get_num_images w <= index -> set_image_index index w = Return false w) /\
  (index < get_num_images w ->
   exists w', set_image_index index w = Return true w' /\
              current_index w' = index /\
              images w' = images w /\
              is_ejected w' = is_ejected w).
Proof.
  rewrite set_image_index_run. split; intros H.
  - destruct (Z.leb_spec (get_num_images w) index) as [_|Hlt]; [reflexivity | lia].
  - destruct (Z.leb_spec (get_num_images w) index) as [Hle|_]; [lia |].
    exists (selected index w). split; [reflexivity |].
    unfold selected. cbn. auto.
Qed.

Lemma set_image_index_spec_witness :
  set_image_index 5 two_images = Return false two_images /\
  exists w', set_image_index 1 two_images = Return true w' /\
             current_index w' = 1 /\
             images w' = images two_images /\
             is_ejected w' = is_ejected two_images.
Proof.
  split.
  - apply (proj1 (set_image_index_spec two_images 5)). vm_compute. discriminate.
  - apply (proj2 (set_image_index_spec two_images 1)). vm_compute. reflexivity.
Defined.

Lemma length_delete_lt {A} (l : list A) (i : nat) :
  (i < length l)%nat -> length (delete i l) = (length l - 1)%nat.
Proof.
  intros H. apply length_delete, lookup_lt_is_Some_2, H.
Qed.

(** [replace_image_index(index, nullptr)] in one equation. *)
Lemma replace_image_index_nullptr_run (w : world) (index : Z) :
  replace_image_index index None w =
  if get_num_images w <=? index then Return false (add_log (invalid_index index) w)
  else Return true (after_removal index w).
Proof.
  unfold replace_image_index, after_removal. run_M. unfold get_image_index.
  destruct (get_num_images w <=? index); [reflexivity |].
  set (w1 := set_images (delete (Z.to_nat index) (images w)) w).
  pose proof (get_num_images_bound w1) as Hb.
  destruct ((get_num_images w1 <=? current_index w1) && (0 <? get_num_images w1))
    eqn:Hfix; [| reflexivity].
  apply andb_true_iff in Hfix as [_ Hgt]. apply Z.ltb_lt in Hgt.
  rewrite (to_uint_id (get_num_images w1 - 1)) by (unfold is_uint; lia).
  destruct (Z.leb_spec (get_num_images w1) (get_num_images w1 - 1)); [lia |].
  reflexivity.
Qed.

(** C4. [replace_image_index(i, nullptr)] with a valid index removes the entry
    at [i] and returns true; the current index becomes (number of images - 1)
    when it has fallen out of range and an image remains, and stays as it was
    otherwise, so that removing the only image leaves zero images and the
    current index 0.  With an invalid index the call returns false and the
    registry is as before. *)
Theorem replace_image_index_nullptr_spec (w : world) (index : Z) :
  0 <= index ->
  (index < get_num_images w ->
   exists w', replace_image_index index None w = Return true w' /\
     images w' = delete (Z.to_nat index) (images w) /\
     length (images w') = (length (images w) - 1)%nat /\
     is_ejected w' = is_ejected w /\
     current_index w' =
       (if (get_num_images w' <=? current_index w) && (0 <? get_num_images w')
        then get_num_images w' - 1 else current_index w) /\
     (length (images w) = 1%nat -> current_index w = 0 ->
      images w' = [] /\ current_index w' = 0)) /\
  (get_num_images w <= index ->
   exists w', replace_image_index index None w = Return false w' /\
     registry w' = registry w).
Proof.
  intros Hpos. rewrite replace_image_index_nullptr_run. split; intros H.
  - destruct (Z.leb_spec (get_num_images w) index) as [Hle|_]; [lia |].
    assert (Hlen : (Z.to_nat index < length (images w))%nat).
    { pose proof (get_num_images_le_length w). lia. }
    exists (after_removal index w). split; [reflexivity |].
    unfold after_removal.
    set (w1 := set_images (delete (Z.to_nat index) (images w)) w).
    assert (Hlen1 : length (images w1) = (length (images w) - 1)%nat).
    { subst w1. cbn. apply length_delete_lt, Hlen. }
    change (current_index w1) with (current_index w).
    destruct ((get_num_images w1 <=? current_index w) && (0 <? get_num_images w1))
      eqn:Hfix.
    + change (get_num_images (selected (get_num_images w1 - 1) w1))
        with (get_num_images w1).
      rewrite Hfix.
      split; [reflexivity |]. split; [exact Hlen1 |]. split; [reflexivity |].
      split; [reflexivity |].
      intros H1 _. exfalso.
      apply andb_true_iff in Hfix as [_ Hgt]. apply Z.ltb_lt in Hgt.
      pose proof (get_num_images_le_length w1). lia.
    + rewrite Hfix.
      split; [reflexivity |]. split; [exact Hlen1 |]. split; [reflexivity |].
      split; [reflexivity |].
      intros H1 H0. split; [| exact H0]. apply nil_length_inv. lia.
  - destruct (Z.leb_spec (get_num_images w) index) as [_|Hlt]; [| lia].
    eexists. split; reflexivity.
Qed.

Lemma replace_image_index_nullptr_spec_witness :
  (exists w', replace_image_index 0 None one_image = Return true w' /\
     images w' = [] /\ current_index w' = 0) /\
  (exists w', replace_image_index 5 None two_images = Return false w' /\
     registry w' = registry two_images).
Proof.
  split.
  - destruct (proj1 (replace_image_index_nullptr_spec one_image 0 ltac:(lia)))
      as (w' & Hrun & _ & _ & _ & _ & Hone); [vm_compute; reflexivity |].
    exists w'. split; [exact Hrun |]. apply Hone; reflexivity.
  - apply (proj2 (replace_image_index_nullptr_spec two_images 5 ltac:(lia))).
    vm_compute. discriminate.
Defined.

(** C5 (fails on the code). The guard of [get_image_label] is [index > count]:
    an index equal to the number of images passes it, and the bounds-checked
    read [state::images.at(index)] throws. *)
Theorem get_image_label_at_count_throws (w : world) (len : nat) :
  Z.of_nat (length (images w)) < UINT_MOD ->
  get_image_label (get_num_images w) len w = Throw out_of_range w.
Proof.
  intros Hsmall. unfold get_image_label. run_M.
  rewrite Z.ltb_irrefl.
  rewrite (get_num_images_small w Hsmall), Nat2Z.id.
  rewrite (proj2 (lookup_ge_None (images w) (length (images w)))); [reflexivity | lia].
Qed.

Lemma get_image_label_at_count_throws_witness :
  get_image_label 2 16 two_images = Throw out_of_range two_images.
Proof.
  apply (get_image_label_at_count_throws two_images 16). vm_compute. reflexivity.
Defined.

(** Beyond the number of images the guard does decline, without reading the
    list. *)
Lemma get_image_label_beyond (w : world) (index : Z) (len : nat) :
  get_num_images w < index ->
  get_image_label index len w = Return (false, []) w.
Proof.
  intros H. unfold get_image_label. run_M.
  destruct (Z.ltb_spec (get_num_images w) index); [reflexivity | lia].
Qed.

(** *** Worlds that only grew *)

Lemma grown_nil w : grown [] [] w = w.
Proof. destruct w. unfold grown. simpl. rewrite !app_nil_r. reflexivity. Qed.

Lemma grown_grown d1 l1 d2 l2 w :
  grown d2 l2 (grown d1 l1 w) = grown (d1 ++ d2) (l1 ++ l2) w.
Proof. unfold grown. simpl. rewrite !app_assoc. reflexivity. Qed.

Lemma add_call_grown c w : add_call c w = grown [c] [] w.
Proof. destruct w. unfold grown, add_call. simpl. rewrite app_nil_r. reflexivity. Qed.

Lemma add_log_grown e w : add_log e w = grown [] [e] w.
Proof. destruct w. unfold grown, add_log. simpl. rewrite app_nil_r. reflexivity. Qed.

(** Collects the calls and log lines of a straight-line run into one [grown]. *)
Ltac collect :=
  rewrite ?add_call_grown, ?add_log_grown, ?grown_grown; cbn [app].

Lemma mount_floppy_image_effect (drive_letter : ascii) (p : path) (w : world) :
  exists d ls,
    mount_floppy_image drive_letter p w
      = Return (floppy_mountable (host w) p) (grown d ls w) /\
    Forall (on_drive (drive_index drive_letter) is_floppy) d /\
    (floppy_mountable (host w) p = true ->
     AppendDisk (drive_index drive_letter) (fatDrive p) ∈ d) /\
    (floppy_mountable (host w) p = false -> Exists is_error ls).
Proof.
  unfold mount_floppy_image, floppy_mountable. run_M.
  destruct (file_size (host w) p) as [sz|].
  - destruct (2880 * 1024 <? sz); cbn [negb andb].
    + collect. eexists [], _. split; [rewrite <- (grown_nil w) at 1; collect; reflexivity |].
      split; [constructor |]. split; [discriminate |].
      intros _. apply Exists_cons_hd. reflexivity.
    + cbn [host add_call]. destruct (created_successfully (host w) p); cbn [negb].
      * collect. eexists _, _. split; [reflexivity |].
        split; [repeat constructor |]. split.
        -- intros _. set_solver.
        -- discriminate.
      * collect. eexists _, _. split; [reflexivity |].
        split; [repeat constructor |]. split; [discriminate |].
        intros _. apply Exists_cons_hd. reflexivity.
  - collect. eexists [], _. split; [rewrite <- (grown_nil w) at 1; collect; reflexivity |].
    split; [constructor |]. split; [discriminate |].
    intros _. apply Exists_cons_hd. reflexivity.
Qed.

Lemma mount_cd_image_effect (drive_letter : ascii) (p : path) (w : world) :
  exists d ls,
    mount_cd_image drive_letter p w
      = Return (optical_mountable (host w) drive_letter p) (grown d ls w) /\
    Forall (on_drive (drive_index drive_letter) (is_optical drive_letter)) d /\
    (optical_mountable (host w) drive_letter p = true ->
     AppendDisk (drive_index drive_letter) (isoDrive drive_letter p 248) ∈ d) /\
    (optical_mountable (host w) drive_letter p = false -> Exists is_error ls).
Proof.
  unfold mount_cd_image, optical_mountable. run_M. cbn [host add_call].
  assert (Hfail : forall key,
    exists d ls,
      Return false (add_call (Delete (isoDrive drive_letter p 248))
        (add_log (Log Error "{}" [ArgMsg key])
          (add_call (New (isoDrive drive_letter p 248))
            (add_call (MSCDEX_SetCDInterface CDROM_USE_SDL (-1)) w))))
      = Return false (grown d ls w) /\
      Forall (on_drive (drive_index drive_letter) (is_optical drive_letter)) d /\
      (false = true -> AppendDisk (drive_index drive_letter) (isoDrive drive_letter p 248) ∈ d) /\
      (false = false -> Exists is_error ls)).
  { intros key. collect. eexists _, _. split; [reflexivity |].
    split; [repeat constructor |]. split; [discriminate |].
    intros _. apply Exists_cons_hd. reflexivity. }
  destruct (isoDrive_error (host w) drive_letter p) as [|q|q]; cbn [Z.eqb].
  - collect. eexists _, _. split; [reflexivity |].
    split; [repeat constructor |]. split; [intros _; set_solver | discriminate].
  - repeat case_match; apply Hfail.
  - apply Hfail.
Qed.

Lemma empty_caches_effect (slots : list nat) (w : world) :
  exists d,
    empty_caches slots w = Return tt (grown d [] w) /\
    forall i kind, Forall (on_drive i kind) d.
Proof.
  revert w. induction slots as [|i rest IH]; intros w.
  - exists []. split; [cbn; unfold mret, M_ret; rewrite grown_nil; reflexivity |].
    intros. constructor.
  - cbn [empty_caches]. run_M.
    destruct (Drives (host w) (calls w) (Z.of_nat i)).
    + destruct (IH (add_call (EmptyCache i) w)) as (d & Heq & Hd).
      rewrite Heq. collect. eexists. split; [reflexivity |].
      intros j kind. constructor; [exact I | apply Hd].
    + destruct (IH w) as (d & Heq & Hd). rewrite Heq. eauto.
Qed.

Lemma mount_finish_effect (drive_letter : ascii) (image : path) (ok : bool) (w : world) :
  exists d ls,
    mount_finish drive_letter image ok w
      = Return ok (set_images (images_after_mount image ok w) (grown d ls w)) /\
    (forall kind, Forall (on_drive (drive_index drive_letter) kind) d) /\
    (ok = true -> CycleDisks (drive_index drive_letter) true ∈ d) /\
    (ok = false -> d = [] /\ ls = []).
Proof.
  destruct w as [imgs cur ej h cs lg].
  unfold mount_finish, images_after_mount. destruct ok; cbn [negb andb].
  - destruct (empty_caches_effect (seq 0 (DOS_DRIVES h)) (World imgs cur ej h cs lg))
      as (d & Heq & Hd).
    run_M. cbn [host]. rewrite Heq.
    unfold grown, add_call, add_log, set_images, get_num_images.
    cbn [images current_index is_ejected host calls log].
    exists (d ++ [CycleDisks (drive_index drive_letter) true]).
    destruct (to_uint (Z.of_nat (length imgs)) =? 0).
    + destruct imgs as [|p0 rest]; cbn [app lookup list_lookup Z.to_nat];
        (eexists; split;
         [ cbn; rewrite <- ?app_assoc; reflexivity
         | split;
           [ intros kind; apply Forall_app; split; [apply Hd | repeat constructor]
           | split; [intros _; set_solver | discriminate] ] ]).
    + eexists; split;
        [ cbn; rewrite <- ?app_assoc; reflexivity
        | split;
          [ intros kind; apply Forall_app; split; [apply Hd | repeat constructor]
          | split; [intros _; set_solver | discriminate] ] ].
  - exists [], []. split; [| split; [intros; constructor | split; [discriminate | auto]]].
    unfold mret, M_ret, grown, set_images. cbn. rewrite !app_nil_r. reflexivity.
Qed.

Section MountFacts.

Variable lower_case : string -> string.

Lemma mount_secure (image : path) (w : world) :
  SecureMode (host w) = true ->
  mount lower_case image w = Return false (add_log secure_refusal w).
Proof. intros H. unfold mount. run_M. rewrite H. reflexivity. Qed.

Lemma mount_unsupported (image : path) (w : world) :
  SecureMode (host w) = false ->
  lower_case (extension image) <> ".img"%string ->
  lower_case (extension image) <> ".iso"%string ->
  lower_case (extension image) <> ".cue"%string ->
  mount lower_case image w = Return false (add_log (unsupported image) w).
Proof.
  intros H Himg Hiso Hcue. unfold mount. run_M. rewrite H.
  apply String.eqb_neq in Himg, Hiso, Hcue. rewrite Himg, Hiso, Hcue.
  reflexivity.
Qed.

Lemma mount_floppy (image : path) (w : world) :
  SecureMode (host w) = false ->
  lower_case (extension image) = ".img"%string ->
  let ok := floppy_mountable (host w) image in
  exists d ls,
    mount lower_case image w
      = Return ok (set_images (images_after_mount image ok w) (grown d ls w)) /\
    Forall (on_drive (drive_index "A") is_floppy) d /\
    (ok = true -> AppendDisk (drive_index "A") (fatDrive image) ∈ d) /\
    (ok = false -> Exists is_error ls).
Proof.
  intros H Himg ok. unfold mount. run_M. rewrite H, Himg.
  cbn [String.eqb Ascii.eqb Bool.eqb].
  set (w0 := add_log _ w).
  destruct (mount_floppy_image_effect "A" image w0) as (d1 & l1 & Heq & Hd1 & Hok & Hfail).
  rewrite Heq. change (floppy_mountable (host w0) image) with ok in *.
  destruct (mount_finish_effect "A" image ok (grown d1 l1 w0))
    as (d2 & l2 & Heq2 & Hd2 & _ & Hnil).
  rewrite Heq2. subst w0.
  change (images_after_mount image ok (grown d1 l1 (add_log ?e w)))
    with (images_after_mount image ok w).
  collect. eexists _, _. split; [reflexivity |].
  split; [apply Forall_app; split; [exact Hd1 | apply Hd2] |].
  split.
  - intros Ht. apply elem_of_app. left. apply Hok, Ht.
  - intros Hf. apply Exists_cons_tl, Exists_app. left. apply Hfail, Hf.
Qed.

Lemma mount_optical (image : path) (w : world) :
  SecureMode (host w) = false ->
  lower_case (extension image) = ".iso"%string \/
  lower_case (extension image) = ".cue"%string ->
  let ok := optical_mountable (host w) "D" image in
  exists d ls,
    mount lower_case image w
      = Return ok (set_images (images_after_mount image ok w) (grown d ls w)) /\
    Forall (on_drive (drive_index "D") (is_optical "D")) d /\
    (ok = true -> AppendDisk (drive_index "D") (isoDrive "D" image 248) ∈ d) /\
    (ok = false -> Exists is_error ls).
Proof.
  intros H Hext ok. unfold mount. run_M. rewrite H.
  assert (Hsel : String.eqb (lower_case (extension image)) ".img" = false /\
                 String.eqb (lower_case (extension image)) ".iso"
                 || String.eqb (lower_case (extension image)) ".cue" = true).
  { destruct Hext as [-> | ->]; split; reflexivity. }
  destruct Hsel as [-> ->].
  set (w0 := add_log _ w).
  destruct (mount_cd_image_effect "D" image w0) as (d1 & l1 & Heq & Hd1 & Hok & Hfail).
  rewrite Heq. change (optical_mountable (host w0) "D" image) with ok in *.
  destruct (mount_finish_effect "D" image ok (grown d1 l1 w0))
    as (d2 & l2 & Heq2 & Hd2 & _ & Hnil).
  rewrite Heq2. subst w0.
  change (images_after_mount image ok (grown d1 l1 (add_log ?e w)))
    with (images_after_mount image ok w).
  collect. eexists _, _. split; [reflexivity |].
  split; [apply Forall_app; split; [exact Hd1 | apply Hd2] |].
  split.
  - intros Ht. apply elem_of_app. left. apply Hok, Ht.
  - intros Hf. apply Exists_cons_tl, Exists_app. left. apply Hfail, Hf.
Qed.

(** [mount] always returns, and touches the registry only through the image
    list. *)
Lemma mount_returns (image : path) (w : world) :
  exists ok d ls,
    mount lower_case image w
      = Return ok (set_images (images_after_mount image ok w) (grown d ls w)).
Proof.
  destruct (SecureMode (host w)) eqn:Hsec.
  - exists false, [], [secure_refusal]. rewrite (mount_secure image w Hsec).
    rewrite add_log_grown. reflexivity.
  - destruct (decide (lower_case (extension image) = ".img"%string)) as [Himg|Himg].
    { destruct (mount_floppy image w Hsec Himg) as (d & ls & Heq & _). eauto. }
    destruct (decide (lower_case (extension image) = ".iso"%string)) as [Hiso|Hiso].
    { destruct (mount_optical image w Hsec (or_introl Hiso)) as (d & ls & Heq & _).
      eauto. }
    destruct (decide (lower_case (extension image) = ".cue"%string)) as [Hcue|Hcue].
    { destruct (mount_optical image w Hsec (or_intror Hcue)) as (d & ls & Heq & _).
      eauto. }
    exists false, [], [unsupported image].
    rewrite (mount_unsupported image w Hsec Himg Hiso Hcue).
    rewrite add_log_grown. reflexivity.
Qed.

Lemma unmount_drive_effect (drive_letter : ascii) (w : world) :
  exists d,
    unmount_drive drive_letter w = Return true (grown d [] w) /\
    Drives_assign_null (drive_index drive_letter) ∈ d /\
    CycleDisks (drive_index drive_letter) true ∈ d.
Proof.
  unfold unmount_drive. run_M.
  destruct (Drives (host w) (calls w) (drive_index drive_letter));
    collect; eexists; (split; [reflexivity | split; set_solver]).
Qed.

(** [unmount] always returns and leaves the registry alone; it never asks
    for the secure mode. *)
Lemma unmount_returns (p : path) (w : world) :
  exists ok d ls, unmount lower_case p w = Return ok (grown d ls w).
Proof.
  unfold unmount. run_M.
  destruct (get_num_images w =? 0).
  - collect. exists false, [], [Log Warn "No disks added to index." []].
    rewrite <- (grown_nil w) at 1. collect. reflexivity.
  - destruct (String.eqb (lower_case (extension p)) ".img").
    + set (w0 := add_log _ w).
      destruct (unmount_drive_effect "A" w0) as (d & Heq & _).
      rewrite Heq. subst w0. collect. eauto.
    + destruct (String.eqb (lower_case (extension p)) ".iso"
                || String.eqb (lower_case (extension p)) ".cue").
      * set (w0 := add_log _ w).
        destruct (unmount_drive_effect "D" w0) as (d & Heq & _).
        rewrite Heq. subst w0. collect. eauto.
      * exists false, [], [unsupported p].
        rewrite <- (grown_nil w) at 1. collect. reflexivity.
Qed.

End MountFacts.

(** C6, as stated, fails: with the tray open and secure mode on,
    [set_eject_state(false)] is declined by [mount], yet the ejected flag has
    already been overwritten. *)
Lemma set_eject_state_declined_flag_changed :
  exists w',
    set_eject_state ascii_lower_case false tray_open_secure = Return false w' /\
    is_ejected tray_open_secure = true /\
    is_ejected w' = false /\
    registry w' <> registry tray_open_secure.
Proof.
  eexists. split; [vm_compute; reflexivity |].
  split; [reflexivity |]. split; [reflexivity |]. discriminate.
Qed.

(** C6 (amended). A call to [set_eject_state(ejected)] that returns false
    leaves the image list and the current index as they were; the ejected
    flag holds the requested value. *)
Theorem set_eject_state_declined (lower_case : string -> string)
    (ejected : bool) (w w' : world) :
  set_eject_state lower_case ejected w = Return false w' ->
  images w' = images w /\
  current_index w' = current_index w /\
  is_ejected w' = ejected.
Proof.
  unfold set_eject_state. run_M.
  set (w1 := add_log _ (set_is_ejected ejected w)).
  destruct (get_num_images w1 =? 0) eqn:Hn; [discriminate |].
  destruct ejected.
  - destruct (images w1 !! Z.to_nat (get_image_index w1)) as [p|]; [| discriminate].
    destruct (unmount_returns lower_case p w1) as (ok & d & ls & Heq). rewrite Heq.
    intros [= -> <-]. auto.
  - destruct (images w1 !! Z.to_nat (get_image_index w1)) as [p|]; [| discriminate].
    destruct (mount_returns lower_case p w1) as (ok & d & ls & Heq). rewrite Heq.
    intros [= -> <-]. auto.
Qed.

Lemma set_eject_state_declined_witness :
  exists w',
    images w' = images tray_open_secure /\
    current_index w' = current_index tray_open_secure /\
    is_ejected w' = false.
Proof.
  eexists.
  apply (set_eject_state_declined ascii_lower_case false tray_open_secure).
  vm_compute. reflexivity.
Defined.

(** In secure mode [mount] declines before it looks at the image. *)
Lemma mount_secure_declines (lower_case : string -> string) (image : path) (w : world) :
  SecureMode (host w) = true ->
  mount lower_case image w = Return false (add_log secure_refusal w).
Proof. apply mount_secure. Qed.

(** C7 (fails on the code). [unmount] has no secure-mode guard: with secure
    mode on, an image registered and a floppy image path, it clears the slot
    of drive A:, cycles the disks and returns true. *)
Theorem unmount_in_secure_mode (lower_case : string -> string) (p : path) (w : world) :
  SecureMode (host w) = true ->
  get_num_images w <> 0 ->
  lower_case (extension p) = ".img"%string ->
  exists d ls,
    unmount lower_case p w = Return true (grown d ls w) /\
    Drives_assign_null (drive_index "A") ∈ d /\
    CycleDisks (drive_index "A") true ∈ d.
Proof.
  intros _ Hn Himg. unfold unmount. run_M.
  apply Z.eqb_neq in Hn. rewrite Hn, Himg. cbn [String.eqb Ascii.eqb Bool.eqb].
  set (w0 := add_log _ w).
  destruct (unmount_drive_effect "A" w0) as (d & Heq & Hnull & Hcycle).
  rewrite Heq. subst w0. collect. eauto.
Qed.

Lemma unmount_in_secure_mode_witness :
  SecureMode (host secure_one_image) = true /\
  unmount ascii_lower_case "/roms/a.img" secure_one_image
  = Return true
      (grown [UnmountDrive 0; Drives_assign_null 0; CycleDisks 0 true]
             [Log Debug "Unmounting floppy {}." [ArgStr "/roms/a.img"]]
             secure_one_image).
Proof.
  split; [reflexivity |].
  destruct (unmount_in_secure_mode ascii_lower_case "/roms/a.img" secure_one_image)
    as (d & ls & Heq & _); [reflexivity | discriminate | reflexivity |].
  rewrite Heq. vm_compute in Heq. injection Heq as <- <-. reflexivity.
Defined.

Example drive_index_A : drive_index "A" = 0.
Proof. reflexivity. Qed.

Example drive_index_D : drive_index "D" = 3.
Proof. reflexivity. Qed.

(** C8. [disk_control::mount] dispatches on the lower-cased extension of the
    image: for ".img" every drive call it makes concerns drive letter 'A' and
    FAT drive objects, it returns true exactly when secure mode is off and the
    image is mountable, and then the floppy has been appended to drive A:; for
    ".iso" and ".cue" the same holds with drive letter 'D' and ISO drive
    objects; for any other extension it returns false, logs one error line and
    makes no call. *)
Theorem mount_drive_letter (lower_case : string -> string) (image : path) (w : world) :
  (lower_case (extension image) = ".img"%string ->
   let ok := negb (SecureMode (host w)) && floppy_mountable (host w) image in
   exists w' d,
     mount lower_case image w = Return ok w' /\
     calls w' = calls w ++ d /\
     Forall (on_drive (drive_index "A") is_floppy) d /\
     (ok = true -> AppendDisk (drive_index "A") (fatDrive image) ∈ d)) /\
  (lower_case (extension image) = ".iso"%string \/
   lower_case (extension image) = ".cue"%string ->
   let ok := negb (SecureMode (host w)) && optical_mountable (host w) "D" image in
   exists w' d,
     mount lower_case image w = Return ok w' /\
     calls w' = calls w ++ d /\
     Forall (on_drive (drive_index "D") (is_optical "D")) d /\
     (ok = true -> AppendDisk (drive_index "D") (isoDrive "D" image 248) ∈ d)) /\
  (lower_case (extension image) <> ".img"%string ->
   lower_case (extension image) <> ".iso"%string ->
   lower_case (extension image) <> ".cue"%string ->
   exists e,
     mount lower_case image w = Return false (add_log e w) /\
     is_error e /\
     calls (add_log e w) = calls w).
Proof.
  destruct (SecureMode (host w)) eqn:Hsec; cbn [negb andb].
  - pose proof (mount_secure lower_case image w Hsec) as Heq.
    split; [| split].
    + intros _. exists (add_log secure_refusal w), [].
      split; [exact Heq |]. split; [cbn; rewrite app_nil_r; reflexivity |].
      split; [constructor | discriminate].
    + intros _. exists (add_log secure_refusal w), [].
      split; [exact Heq |]. split; [cbn; rewrite app_nil_r; reflexivity |].
      split; [constructor | discriminate].
    + intros _ _ _. exists secure_refusal. split; [exact Heq |]. split; reflexivity.
  - split; [| split].
    + intros Himg.
      destruct (mount_floppy lower_case image w Hsec Himg) as (d & ls & Heq & Hd & Hok & _).
      eexists _, d. split; [exact Heq |]. split; [reflexivity |]. auto.
    + intros Hext.
      destruct (mount_optical lower_case image w Hsec Hext) as (d & ls & Heq & Hd & Hok & _).
      eexists _, d. split; [exact Heq |]. split; [reflexivity |]. auto.
    + intros Himg Hiso Hcue. exists (unsupported image).
      split; [apply mount_unsupported; assumption |]. split; reflexivity.
Qed.

Lemma mount_drive_letter_witness :
  (exists w' d,
     mount ascii_lower_case "/roms/GAME.IMG" (initial (good_host false))
       = Return true w' /\
     calls w' = d /\
     Forall (on_drive 0 is_floppy) d /\
     AppendDisk 0 (fatDrive "/roms/GAME.IMG") ∈ d) /\
  (exists w' d,
     mount ascii_lower_case "/roms/disc.cue" (initial (good_host false))
       = Return true w' /\
     calls w' = d /\
     Forall (on_drive 3 (is_optical "D")) d /\
     AppendDisk 3 (isoDrive "D" "/roms/disc.cue" 248) ∈ d) /\
  (exists e,
     mount ascii_lower_case "/roms/notes.txt" (initial (good_host false))
       = Return false (add_log e (initial (good_host false))) /\
     is_error e).
Proof.
  split; [| split].
  - destruct (proj1 (mount_drive_letter ascii_lower_case "/roms/GAME.IMG"
                       (initial (good_host false))) eq_refl)
      as (w' & d & Heq & Hcalls & Hd & Hin).
    exists w', d. split; [exact Heq |]. split; [exact Hcalls |].
    split; [exact Hd |]. apply Hin. reflexivity.
  - destruct (proj1 (proj2 (mount_drive_letter ascii_lower_case "/roms/disc.cue"
                       (initial (good_host false)))) (or_intror eq_refl))
      as (w' & d & Heq & Hcalls & Hd & Hin).
    exists w', d. split; [exact Heq |]. split; [exact Hcalls |].
    split; [exact Hd |]. apply Hin. reflexivity.
  - destruct (proj2 (proj2 (mount_drive_letter ascii_lower_case "/roms/notes.txt"
                       (initial (good_host false)))))
      as (e & Heq & He & _); [discriminate | discriminate | discriminate |].
    exists e. auto.
Defined.

(** *** The current-index invariant *)

Lemma well_formed_initial (h : env) : well_formed (initial h).
Proof.
  unfold well_formed, index_invariant, is_uint, UINT_MOD. cbn. lia.
Qed.

(** Only the registry matters. *)
Lemma well_formed_registry (w w' : world) :
  images w' = images w -> current_index w' = current_index w ->
  well_formed w -> well_formed w'.
Proof.
  unfold well_formed, index_invariant. intros -> ->. auto.
Qed.

Lemma well_formed_lookup (w : world) :
  well_formed w -> get_num_images w <> 0 ->
  exists p, images w !! Z.to_nat (current_index w) = Some p.
Proof.
  intros [Hu [Hpos _]] Hn.
  assert (0 < Z.of_nat (length (images w))).
  { destruct (images w) eqn:E; [| cbn; lia].
    exfalso. apply Hn. unfold get_num_images. rewrite E. reflexivity. }
  apply lookup_lt_is_Some_2. unfold is_uint in Hu. lia.
Qed.

Lemma add_image_index_preserves (w : world) :
  well_formed w ->
  exists w', add_image_index w = Return true w' /\ well_formed w'.
Proof.
  intros [Hu [Hpos Hzero]]. run_M. eexists. split; [reflexivity |].
  unfold well_formed, index_invariant. cbn. rewrite length_app. cbn.
  split; [exact Hu |]. split; [| lia].
  intros _. destruct (length (images w)) eqn:E; [rewrite Hzero; lia | lia].
Qed.

Lemma set_image_index_preserves (w : world) (index : Z) :
  is_uint index -> well_formed w ->
  exists ok w', set_image_index index w = Return ok w' /\ well_formed w'.
Proof.
  intros Hi Hw. rewrite set_image_index_run.
  destruct (Z.leb_spec (get_num_images w) index) as [Hge|Hlt].
  - exists false, w. auto.
  - exists true, (selected index w). split; [reflexivity |].
    unfold well_formed, index_invariant, selected. cbn.
    pose proof (get_num_images_le_length w) as Hle. unfold is_uint in Hi.
    split; [exact Hi |]. split; [lia |].
    intros Hz. rewrite Hz in Hle. cbn in Hle. lia.
Qed.

Lemma after_removal_preserves (w : world) (index : Z) :
  0 <= index < get_num_images w -> well_formed w ->
  well_formed (after_removal index w).
Proof.
  intros Hi [Hu [Hpos Hzero]]. unfold after_removal.
  set (w1 := set_images (delete (Z.to_nat index) (images w)) w).
  pose proof (get_num_images_le_length w) as Hle.
  assert (Hlen1 : length (images w1) = (length (images w) - 1)%nat).
  { subst w1. cbn. apply length_delete_lt. lia. }
  pose proof (get_num_images_bound w1) as Hb.
  pose proof (get_num_images_le_length w1) as Hle1.
  change (current_index w1) with (current_index w).
  unfold is_uint, UINT_MOD in *.
  destruct ((get_num_images w1 <=? current_index w) && (0 <? get_num_images w1))
    eqn:Hfix.
  - apply andb_true_iff in Hfix as [_ Hgt]. apply Z.ltb_lt in Hgt.
    unfold well_formed, index_invariant, is_uint, UINT_MOD. cbn.
    change (delete (Z.to_nat index) (images w)) with (images w1).
    split; [lia |]. split; [lia |].
    intros H0. rewrite H0 in Hle1. cbn in Hle1. lia.
  - unfold well_formed, index_invariant, is_uint, UINT_MOD.
    change (current_index w1) with (current_index w).
    split; [exact Hu |].
    apply andb_false_iff in Hfix.
    destruct (Z_lt_ge_dec (Z.of_nat (length (images w1))) (2 ^ 32)) as [Hs|Hs].
    + rewrite (get_num_images_small w1 Hs) in Hfix.
      split; [| intros H0; lia ].
      intros Hp. destruct Hfix as [Hf|Hf]; [apply Z.leb_gt in Hf; lia |].
      apply Z.ltb_ge in Hf. lia.
    + split; [lia | lia].
Qed.

Lemma replace_image_index_preserves (w : world) (index : Z) (info : option path) :
  is_uint index -> well_formed w ->
  exists ok w', replace_image_index index info w = Return ok w' /\ well_formed w'.
Proof.
  intros Hi Hw. destruct info as [p|].
  - unfold replace_image_index. run_M.
    destruct (Z.leb_spec (get_num_images w) index) as [Hge|Hlt].
    + eexists _, _. split; [reflexivity |].
      apply (well_formed_registry w); [reflexivity | reflexivity | exact Hw].
    + pose proof (get_num_images_le_length w). unfold is_uint in Hi.
      destruct (lookup_lt_is_Some_2 (images w) (Z.to_nat index)) as [q Hq]; [lia |].
      rewrite Hq. eexists _, _. split; [reflexivity |].
      destruct Hw as [Hu Hinv]. split; [exact Hu |].
      unfold index_invariant in *. cbn. rewrite length_insert. exact Hinv.
  - rewrite replace_image_index_nullptr_run.
    destruct (Z.leb_spec (get_num_images w) index) as [Hge|Hlt].
    + eexists _, _. split; [reflexivity |].
      apply (well_formed_registry w); [reflexivity | reflexivity | exact Hw].
    + eexists _, _. split; [reflexivity |].
      apply after_removal_preserves; [unfold is_uint in Hi; lia | exact Hw].
Qed.

Section ServeFacts.

Variable lower_case : string -> string.

Lemma mount_preserves (image : path) (w : world) :
  well_formed w ->
  exists ok w', mount lower_case image w = Return ok w' /\ well_formed w'.
Proof.
  intros Hw. destruct (mount_returns lower_case image w) as (ok & d & ls & Heq).
  eexists _, _. split; [exact Heq |].
  destruct Hw as [Hu [Hpos Hzero]].
  unfold well_formed, index_invariant, images_after_mount. cbn.
  split; [exact Hu |].
  destruct (ok && (get_num_images w =? 0)).
  - rewrite length_insert, length_app. cbn. split; [| lia].
    intros _. destruct (length (images w)) eqn:E; [rewrite Hzero; lia | lia].
  - auto.
Qed.

Lemma set_eject_state_preserves (ejected : bool) (w : world) :
  well_formed w ->
  exists ok w', set_eject_state lower_case ejected w = Return ok w' /\ well_formed w'.
Proof.
  intros Hw. unfold set_eject_state. run_M.
  set (w1 := add_log _ (set_is_ejected ejected w)).
  assert (Hw1 : well_formed w1).
  { apply (well_formed_registry w); [reflexivity | reflexivity | exact Hw]. }
  destruct (get_num_images w1 =? 0) eqn:Hn.
  - eexists _, _. split; [reflexivity | exact Hw1].
  - apply Z.eqb_neq in Hn.
    destruct (well_formed_lookup w1 Hw1 Hn) as [p Hp].
    unfold get_image_index. destruct ejected; rewrite Hp.
    + destruct (unmount_returns lower_case p w1) as (ok & d & ls & Heq).
      eexists _, _. split; [exact Heq |].
      apply (well_formed_registry w1); [reflexivity | reflexivity | exact Hw1].
    + apply mount_preserves, Hw1.
Qed.

Lemma serve_preserves (r : request) (w : world) :
  well_formed w ->
  exists ok w', serve lower_case r w = Return ok w' /\ well_formed w'.
Proof.
  intros Hw. destruct r as [|i|i info|e|image|h]; cbn [serve].
  - destruct (add_image_index_preserves w Hw) as (w' & Heq & Hw'). eauto.
  - apply set_image_index_preserves; [apply to_uint_range | exact Hw].
  - apply replace_image_index_preserves; [apply to_uint_range | exact Hw].
  - apply set_eject_state_preserves, Hw.
  - apply mount_preserves, Hw.
  - run_M. eexists _, _. split; [reflexivity |].
    apply (well_formed_registry w); [reflexivity | reflexivity | exact Hw].
Qed.

Lemma serve_all_preserves (rs : list request) (w : world) :
  well_formed w ->
  exists w', serve_all lower_case rs w = Return tt w' /\ well_formed w'.
Proof.
  revert w. induction rs as [|r rest IH]; intros w Hw.
  - exists w. split; [reflexivity | exact Hw].
  - cbn [serve_all]. unfold mbind, M_bind.
    destruct (serve_preserves r w Hw) as (ok & w1 & Heq & Hw1).
    rewrite Heq. apply IH, Hw1.
Qed.

End ServeFacts.

(** C9. From the empty registry, every sequence of [add_image_index],
    [set_image_index], [replace_image_index], [set_eject_state] and
    [disk_control::mount] requests (with the host changing in between as it
    likes) runs to completion, and afterwards the current index is below the
    number of images when there is an image, and 0 when there is none. *)
Theorem current_index_invariant (lower_case : string -> string) (h : env)
    (rs : list request) :
  exists w',
    serve_all lower_case rs (initial h) = Return tt w' /\
    (0 < Z.of_nat (length (images w')) ->
     0 <= current_index w' < Z.of_nat (length (images w'))) /\
    (length (images w') = 0%nat -> current_index w' = 0).
Proof.
  destruct (serve_all_preserves lower_case rs (initial h) (well_formed_initial h))
    as (w' & Heq & [Hu [Hpos Hzero]]).
  exists w'. split; [exact Heq |]. split; [| exact Hzero].
  intros H. unfold is_uint in Hu. split; [lia | apply Hpos, H].
Qed.

Lemma current_index_invariant_witness :
  exists w',
    serve_all ascii_lower_case swap_session (initial (good_host false)) = Return tt w' /\
    length (images w') = 1%nat /\
    0 <= current_index w' < Z.of_nat (length (images w')).
Proof.
  destruct (current_index_invariant ascii_lower_case (good_host false) swap_session)
    as (w' & Heq & Hpos & _).
  exists w'. split; [exact Heq |].
  assert (Hlen : length (images w') = 1%nat).
  { vm_compute in Heq. injection Heq as <-. reflexivity. }
  split; [exact Hlen |]. apply Hpos. rewrite Hlen. reflexivity.
Defined.

(** ** Further properties of the disk control *)

(** X1. [add_image_index] always returns true and appends one empty slot:
    the image list grows by an empty path at its end, the current index, the
    tray flag and the emulator are untouched, and (while the count fits in an
    [unsigned int]) the count grows by one and the new slot sits at the old
    count. *)
Theorem add_image_index_appends (w : world) :
  exists w',
    add_image_index w = Return true w' /\
    images w' = images w ++ [EmptyString] /\
    current_index w' = current_index w /\
    is_ejected w' = is_ejected w /\
    calls w' = calls w /\
    (Z.of_nat (length (images w)) + 1 < UINT_MOD ->
     get_num_images w' = get_num_images w + 1 /\
     images w' !! Z.to_nat (get_num_images w) = Some EmptyString).
Proof.
  run_M. eexists. split; [reflexivity |]. cbn [images current_index is_ejected calls
    add_log set_images].
  repeat (split; [reflexivity |]).
  intros Hsmall. rewrite (get_num_images_small w) by lia.
  unfold get_num_images. cbn [images add_log set_images]. rewrite length_app. cbn [length].
  rewrite to_uint_id by (unfold is_uint; lia).
  split; [lia |].
  rewrite Nat2Z.id. apply list_lookup_middle. reflexivity.
Qed.

Lemma add_image_index_appends_witness :
  exists w',
    add_image_index two_images = Return true w' /\
    get_num_images w' = 3 /\
    images w' !! 2%nat = Some EmptyString.
Proof.
  destruct (add_image_index_appends two_images)
    as (w' & Hrun & _ & _ & _ & _ & Hcount).
  exists w'. split; [exact Hrun |]. apply Hcount. vm_compute. reflexivity.
Defined.

(** [replace_image_index(index, info)] with a path, in one equation. *)
Lemma replace_image_index_path_run (w : world) (index : Z) (p : path) :
  0 <= index ->
  replace_image_index index (Some p) w =
  if get_num_images w <=? index then Return false (add_log (invalid_index index) w)
  else Return true (set_images (<[Z.to_nat index := p]> (images w)) w).
Proof.
  intros Hpos. unfold replace_image_index. run_M.
  destruct (Z.leb_spec (get_num_images w) index) as [Hge|Hlt]; [reflexivity |].
  pose proof (get_num_images_le_length w).
  destruct (lookup_lt_is_Some_2 (images w) (Z.to_nat index)) as [q Hq]; [lia |].
  rewrite Hq. reflexivity.
Qed.

(** X2. [replace_image_index(i, info)] with a path and a valid index returns
    true and overwrites entry [i]: looking up [i] gives the new path, every
    other entry, the number of images, the current index and the tray flag
    are as before.  With an invalid index it returns false and the registry
    is as before. *)
Theorem replace_image_index_path (w : world) (index : Z) (p : path) :
  0 <= index ->
  (index < get_num_images w ->
   exists w',
     replace_image_index index (Some p) w = Return true w' /\
     images w' !! Z.to_nat index = Some p /\
     (forall j, j <> Z.to_nat index -> images w' !! j = images w !! j) /\
     length (images w') = length (images w) /\
     current_index w' = current_index w /\
     is_ejected w' = is_ejected w) /\
  (get_num_images w <= index ->
   exists w',
     replace_image_index index (Some p) w = Return false w' /\
     registry w' = registry w).
Proof.
  intros Hpos. rewrite (replace_image_index_path_run w index p Hpos).
  split; intros H.
  - destruct (Z.leb_spec (get_num_images w) index) as [Hge|_]; [lia |].
    pose proof (get_num_images_le_length w).
    eexists. split; [reflexivity |]. cbn [images current_index is_ejected set_images].
    split; [apply list_lookup_insert_eq; lia |].
    split; [intros j Hj; apply list_lookup_insert_ne; congruence |].
    split; [apply length_insert |]. split; reflexivity.
  - destruct (Z.leb_spec (get_num_images w) index) as [_|Hlt]; [| lia].
    eexists. split; reflexivity.
Qed.

Lemma replace_image_index_path_witness :
  (exists w',
     replace_image_index 1 (Some "/roms/d.cue"%string) two_images = Return true w' /\
     images w' = ["/roms/a.img"; "/roms/d.cue"]%string) /\
  (exists w',
     replace_image_index 2 (Some "/roms/d.cue"%string) two_images = Return false w' /\
     registry w' = registry two_images).
Proof.
  split.
  - destruct (proj1 (replace_image_index_path two_images 1 "/roms/d.cue" ltac:(lia)))
      as (w' & Hrun & _); [vm_compute; reflexivity |].
    exists w'. split; [exact Hrun |].
    vm_compute in Hrun. injection Hrun as <-. reflexivity.
  - apply (proj2 (replace_image_index_path two_images 2 "/roms/d.cue" ltac:(lia))).
    vm_compute. discriminate.
Defined.

Lemma images_after_removal (w : world) (index : Z) :
  images (after_removal index w) = delete (Z.to_nat index) (images w).
Proof.
  unfold after_removal.
  destruct (_ && _); reflexivity.
Qed.

(** X3. Removing entry [i] with [replace_image_index(i, nullptr)] renumbers
    the registry: entries before [i] keep their index, every later entry
    moves down by one. *)
Theorem replace_image_index_nullptr_renumbers (w : world) (index : Z) :
  0 <= index < get_num_images w ->
  exists w',
    replace_image_index index None w = Return true w' /\
    (forall j, (j < Z.to_nat index)%nat -> images w' !! j = images w !! j) /\
    (forall j, (Z.to_nat index <= j)%nat -> images w' !! j = images w !! S j).
Proof.
  intros [Hpos Hlt]. rewrite replace_image_index_nullptr_run.
  destruct (Z.leb_spec (get_num_images w) index) as [Hge|_]; [lia |].
  eexists. split; [reflexivity |]. rewrite images_after_removal.
  split; intros j Hj.
  - apply list_lookup_delete_lt, Hj.
  - apply list_lookup_delete_ge, Hj.
Qed.

Lemma replace_image_index_nullptr_renumbers_witness :
  exists w',
    replace_image_index 1 None three_images = Return true w' /\
    images w' !! 0%nat = Some "/roms/a.img"%string /\
    images w' !! 1%nat = Some "/roms/c.img"%string.
Proof.
  destruct (replace_image_index_nullptr_renumbers three_images 1)
    as (w' & Hrun & Hbefore & Hafter); [vm_compute; split; [discriminate | reflexivity] |].
  exists w'. split; [exact Hrun |].
  split.
  - rewrite Hbefore; [reflexivity | cbn; lia].
  - rewrite Hafter; [reflexivity | cbn; lia].
Defined.

(** X4. Which image is current after [replace_image_index(i, nullptr)], on a
    well-formed registry whose size fits in an [unsigned int]: removing a
    later entry keeps the current image; removing the current or an earlier
    entry keeps the index, which now designates the following image; only when
    the current image was the last one does the index step back by one. *)
Theorem removal_current_image (w : world) (index : Z) :
  0 <= index < get_num_images w ->
  well_formed w ->
  Z.of_nat (length (images w)) < UINT_MOD ->
  exists w',
    replace_image_index index None w = Return true w' /\
    (current_index w < index ->
     current_index w' = current_index w /\
     images w' !! Z.to_nat (current_index w') = images w !! Z.to_nat (current_index w)) /\
    (index <= current_index w ->
     current_index w + 1 < Z.of_nat (length (images w)) ->
     current_index w' = current_index w /\
     images w' !! Z.to_nat (current_index w')
       = images w !! Z.to_nat (current_index w + 1)) /\
    (index <= current_index w ->
     current_index w + 1 = Z.of_nat (length (images w)) ->
     1 < Z.of_nat (length (images w)) ->
     current_index w' = current_index w - 1).
Proof.
  intros [Hpos Hlt] [Hu [Hinv _]] Hsmall. rewrite replace_image_index_nullptr_run.
  destruct (Z.leb_spec (get_num_images w) index) as [Hge|_]; [lia |].
  rewrite (get_num_images_small w Hsmall) in Hlt.
  exists (after_removal index w). split; [reflexivity |].
  rewrite images_after_removal. unfold after_removal.
  set (w1 := set_images (delete (Z.to_nat index) (images w)) w).
  assert (Hn1 : get_num_images w1 = Z.of_nat (length (images w)) - 1).
  { assert (Hlen1 : length (images w1) = (length (images w) - 1)%nat)
      by (subst w1; cbn; apply length_delete_lt; lia).
    rewrite get_num_images_small; rewrite Hlen1; lia. }
  rewrite Hn1. change (current_index w1) with (current_index w).
  unfold is_uint in Hu.
  split; [| split].
  - intros Hcur.
    destruct (Z.leb_spec (Z.of_nat (length (images w)) - 1) (current_index w)); [lia |].
    cbn [andb]. split; [reflexivity |].
    apply list_lookup_delete_lt. subst w1. cbn [current_index set_images]. lia.
  - intros Hcur Hnext.
    destruct (Z.leb_spec (Z.of_nat (length (images w)) - 1) (current_index w)); [lia |].
    cbn [andb]. split; [reflexivity |].
    subst w1. cbn [current_index set_images].
    rewrite list_lookup_delete_ge by lia. f_equal. lia.
  - intros Hcur Hlast Hmore.
    destruct (Z.leb_spec (Z.of_nat (length (images w)) - 1) (current_index w)); [| lia].
    destruct (Z.ltb_spec 0 (Z.of_nat (length (images w)) - 1)); [| lia].
    cbn [andb]. unfold selected. cbn [current_index add_log set_current_index]. lia.
Qed.

Lemma removal_current_image_witness :
  (exists w',
     replace_image_index 0 None three_images = Return true w' /\
     current_index w' = 1 /\
     images three_images !! 1%nat = Some "/roms/b.iso"%string /\
     images w' !! 1%nat = Some "/roms/c.img"%string) /\
  (exists w',
     replace_image_index 2 None three_images = Return true w' /\
     current_index w' = 1 /\
     images w' !! 1%nat = Some "/roms/b.iso"%string).
Proof.
  assert (Hw : well_formed three_images).
  { unfold well_formed, index_invariant, is_uint, UINT_MOD. cbn. lia. }
  split.
  - destruct (removal_current_image three_images 0) as (w' & Hrun & _ & Hnext & _);
      [vm_compute; split; [discriminate | reflexivity] | exact Hw
      | vm_compute; reflexivity |].
    destruct Hnext as [Hcur Himg]; [cbn; lia | cbn; lia |].
    exists w'. split; [exact Hrun |]. split; [exact Hcur |].
    split; [reflexivity |]. rewrite Hcur in Himg. exact Himg.
  - destruct (removal_current_image three_images 2) as (w' & Hrun & Hkeep & _);
      [vm_compute; split; [discriminate | reflexivity] | exact Hw
      | vm_compute; reflexivity |].
    destruct Hkeep as [Hcur Himg]; [cbn; lia |].
    exists w'. split; [exact Hrun |]. split; [exact Hcur |].
    rewrite Hcur in Himg. exact Himg.
Defined.

Lemma add_image_index_run (w : world) :
  add_image_index w
  = Return true
      (add_log (Log Debug "Disk count {}."
                  [ArgUInt (get_num_images (set_images (images w ++ [EmptyString]) w))])
               (set_images (images w ++ [EmptyString]) w)).
Proof. reflexivity. Qed.

Lemma get_num_images_after_add (w : world) (e : log_entry) :
  Z.of_nat (length (images w)) + 1 < UINT_MOD ->
  get_num_images (add_log e (set_images (images w ++ [EmptyString]) w))
  = get_num_images w + 1.
Proof.
  intros Hsmall. rewrite (get_num_images_small w) by lia.
  unfold get_num_images. cbn [images add_log set_images].
  rewrite length_app. cbn [length]. rewrite to_uint_id by (unfold is_uint; lia). lia.
Qed.

(** X5. The frontend's way of appending a disk works: [add_image_index()],
    then [replace_image_index(n, info)] and [set_image_index(n)] with [n] the
    count before the call all return true, and afterwards the registry is the
    old one followed by the new path, which is the current image. *)
Theorem append_image_flow (w : world) (p : path) :
  Z.of_nat (length (images w)) + 1 < UINT_MOD ->
  exists w1 w2 w3,
    add_image_index w = Return true w1 /\
    replace_image_index (get_num_images w) (Some p) w1 = Return true w2 /\
    set_image_index (get_num_images w) w2 = Return true w3 /\
    images w3 = images w ++ [p] /\
    current_index w3 = get_num_images w /\
    images w3 !! Z.to_nat (current_index w3) = Some p /\
    is_ejected w3 = is_ejected w.
Proof.
  intros Hsmall. pose proof (get_num_images_bound w) as Hb.
  rewrite add_image_index_run. eexists _, _, _. split; [reflexivity |].
  rewrite replace_image_index_path_run by lia.
  rewrite get_num_images_after_add by exact Hsmall.
  destruct (Z.leb_spec (get_num_images w + 1) (get_num_images w)); [lia |].
  split; [reflexivity |].
  rewrite set_image_index_run.
  change (get_num_images (set_images ?l (add_log ?e ?w0)))
    with (to_uint (Z.of_nat (length l))).
  cbn [images add_log set_images].
  rewrite (get_num_images_small w) by lia. rewrite Nat2Z.id.
  assert (Hins : <[length (images w) := p]> (images w ++ [EmptyString]) = images w ++ [p]).
  { rewrite insert_app_r_alt by lia. rewrite Nat.sub_diag. reflexivity. }
  rewrite Hins, length_app. cbn [length].
  rewrite to_uint_id by (unfold is_uint; lia).
  destruct (Z.leb_spec (Z.of_nat (length (images w) + 1)) (Z.of_nat (length (images w))));
    [lia |].
  split; [reflexivity |]. unfold selected.
  cbn [images current_index is_ejected add_log set_current_index set_images].
  split; [reflexivity |]. split; [reflexivity |].
  split; [| reflexivity].
  rewrite Nat2Z.id. apply list_lookup_middle. reflexivity.
Qed.

Lemma append_image_flow_witness :
  exists w1 w2 w3,
    add_image_index two_images = Return true w1 /\
    replace_image_index 2 (Some "/roms/c.img"%string) w1 = Return true w2 /\
    set_image_index 2 w2 = Return true w3 /\
    images w3 = ["/roms/a.img"; "/roms/b.iso"; "/roms/c.img"]%string /\
    current_index w3 = 2.
Proof.
  destruct (append_image_flow two_images "/roms/c.img")
    as (w1 & w2 & w3 & H1 & H2 & H3 & Himgs & Hcur & _); [vm_compute; reflexivity |].
  exists w1, w2, w3. auto.
Defined.

(** X6. Adding a slot and removing it again is a round trip: on a well-formed
    registry, [add_image_index()] followed by [replace_image_index(n, nullptr)]
    with [n] the count before the call gives back the image list, the current
    index and the tray flag. *)
Theorem add_then_remove (w : world) :
  well_formed w ->
  Z.of_nat (length (images w)) + 1 < UINT_MOD ->
  exists w1 w2,
    add_image_index w = Return true w1 /\
    replace_image_index (get_num_images w) None w1 = Return true w2 /\
    registry w2 = registry w.
Proof.
  intros [Hu [Hinv Hzero]] Hsmall. pose proof (get_num_images_bound w) as Hb.
  rewrite add_image_index_run. eexists _, _. split; [reflexivity |].
  rewrite replace_image_index_nullptr_run.
  rewrite get_num_images_after_add by exact Hsmall.
  destruct (Z.leb_spec (get_num_images w + 1) (get_num_images w)); [lia |].
  split; [reflexivity |].
  unfold registry. rewrite images_after_removal. cbn [images add_log set_images].
  rewrite (get_num_images_small w) by lia. rewrite Nat2Z.id.
  assert (Hdel : delete (length (images w)) (images w ++ [EmptyString]) = images w).
  { etrans; [apply (delete_middle (images w) [] EmptyString) | apply app_nil_r]. }
  rewrite Hdel.
  unfold after_removal. cbn [images add_log set_images].
  rewrite Nat2Z.id, Hdel.
  match goal with
  | |- context [if ?c then _ else _] => destruct c eqn:Hfix
  end.
  - exfalso. apply andb_true_iff in Hfix as [Hge Hgt].
    apply Z.leb_le in Hge. apply Z.ltb_lt in Hgt.
    assert (Hn : get_num_images (set_images (images w)
                   (add_log (Log Debug "Disk count {}."
                      [ArgUInt (get_num_images (set_images (images w ++ [EmptyString]) w))])
                      (set_images (images w ++ [EmptyString]) w)))
                 = Z.of_nat (length (images w))).
    { apply to_uint_id. unfold is_uint. cbn [images set_images]. lia. }
    rewrite Hn in Hge, Hgt. cbn [current_index add_log set_images] in Hge. lia.
  - reflexivity.
Qed.

Lemma add_then_remove_witness :
  exists w1 w2,
    add_image_index two_images = Return true w1 /\
    replace_image_index 2 None w1 = Return true w2 /\
    registry w2 = registry two_images.
Proof.
  apply (add_then_remove two_images).
  - unfold well_formed, index_invariant, is_uint, UINT_MOD. cbn. lia.
  - vm_compute. reflexivity.
Defined.

(** The bytes [strncpy] and the terminating store leave in a buffer of
    [S k] bytes. *)
Lemma label_bytes (s : string) (k : nat) :
  let label := <[k := zero]> (strncpy s (S k)) in
  length label = S k /\
  label !! k = Some zero /\
  forall i, (i < k)%nat ->
    label !! i = Some (default zero (list_ascii_of_string s !! i)).
Proof.
  cbn zeta. unfold strncpy. set (cs := list_ascii_of_string s).
  assert (Hlen : length (take (S k) (cs ++ replicate (S k) zero)) = S k).
  { rewrite length_take, length_app, length_replicate. lia. }
  split; [rewrite length_insert; exact Hlen |].
  split; [apply list_lookup_insert_eq; lia |].
  intros i Hi. rewrite list_lookup_insert_ne by lia.
  rewrite lookup_take_lt by lia.
  destruct (cs !! i) as [c|] eqn:Hc.
  - rewrite (lookup_app_l_Some _ _ _ _ Hc). reflexivity.
  - apply lookup_ge_None in Hc. rewrite lookup_app_r by exact Hc.
    cbn [default]. apply lookup_replicate_2. lia.
Qed.

Lemma get_image_label_run (w : world) (index : Z) (k : nat) :
  get_image_label index (S k) w =
  if get_num_images w <? index then Return (false, []) w
  else match images w !! Z.to_nat index with
       | Some p => Return (true, <[k := zero]> (strncpy (filename p) (S k))) w
       | None => Throw out_of_range w
       end.
Proof.
  unfold get_image_label. run_M.
  destruct (get_num_images w <? index); [reflexivity |].
  destruct (images w !! Z.to_nat index); reflexivity.
Qed.

(** X7. For an index below the number of images and a buffer of [len] > 0
    bytes, [get_image_label] returns true, changes nothing, and fills the
    whole buffer: byte [i] < [len] - 1 is character [i] of the image's file
    name, or NUL past its end, and the last byte is NUL; so a name that is too
    long is cut to [len] - 1 characters and the label is always terminated. *)
Theorem get_image_label_in_range (w : world) (index : Z) (len : nat) :
  0 <= index < get_num_images w ->
  (0 < len)%nat ->
  exists p label,
    images w !! Z.to_nat index = Some p /\
    get_image_label index len w = Return (true, label) w /\
    length label = len /\
    label !! (len - 1)%nat = Some zero /\
    forall i, (i < len - 1)%nat ->
      label !! i = Some (default zero (list_ascii_of_string (filename p) !! i)).
Proof.
  intros [Hpos Hlt] Hlen. destruct len as [|k]; [lia |].
  pose proof (get_num_images_le_length w).
  destruct (lookup_lt_is_Some_2 (images w) (Z.to_nat index)) as [p Hp]; [lia |].
  exists p, (<[k := zero]> (strncpy (filename p) (S k))).
  split; [exact Hp |]. rewrite get_image_label_run, Hp.
  destruct (Z.ltb_spec (get_num_images w) index); [lia |].
  split; [reflexivity |].
  replace (S k - 1)%nat with k by lia. apply label_bytes.
Qed.

Lemma get_image_label_in_range_witness :
  get_image_label 1 6 two_images
  = Return (true, ["b"; "."; "i"; "s"; "o"; zero]%char) two_images /\
  get_image_label 1 4 two_images
  = Return (true, ["b"; "."; "i"; zero]%char) two_images.
Proof.
  split.
  - destruct (get_image_label_in_range two_images 1 6) as (p & label & _ & Hrun & _);
      [vm_compute; split; [discriminate | reflexivity] | lia |].
    rewrite Hrun. vm_compute in Hrun. injection Hrun as <-. reflexivity.
  - destruct (get_image_label_in_range two_images 1 4) as (p & label & _ & Hrun & _);
      [vm_compute; split; [discriminate | reflexivity] | lia |].
    rewrite Hrun. vm_compute in Hrun. injection Hrun as <-. reflexivity.
Defined.

(** X8. Replacing an image and then asking for its label gives the new file's
    name: after [replace_image_index(i, info)] with a valid index,
    [get_image_label(i, label, len)] returns true and the label is the file
    name of the new path, cut to [len] - 1 characters. *)
Theorem label_after_replace (w : world) (index : Z) (p : path) (len : nat) :
  0 <= index < get_num_images w ->
  (0 < len)%nat ->
  exists w1 label,
    replace_image_index index (Some p) w = Return true w1 /\
    get_image_label index len w1 = Return (true, label) w1 /\
    label !! (len - 1)%nat = Some zero /\
    forall i, (i < len - 1)%nat ->
      label !! i = Some (default zero (list_ascii_of_string (filename p) !! i)).
Proof.
  intros [Hpos Hlt] Hlen. destruct len as [|k]; [lia |].
  pose proof (get_num_images_le_length w).
  rewrite replace_image_index_path_run by exact Hpos.
  destruct (Z.leb_spec (get_num_images w) index); [lia |].
  eexists _, (<[k := zero]> (strncpy (filename p) (S k))).
  split; [reflexivity |]. rewrite get_image_label_run.
  assert (Hn : get_num_images (set_images (<[Z.to_nat index:=p]> (images w)) w)
               = get_num_images w).
  { unfold get_num_images. cbn [images set_images]. rewrite length_insert. reflexivity. }
  rewrite Hn. destruct (Z.ltb_spec (get_num_images w) index); [lia |].
  cbn [images set_images]. rewrite list_lookup_insert_eq by lia.
  split; [reflexivity |].
  replace (S k - 1)%nat with k by lia. apply label_bytes.
Qed.

Lemma label_after_replace_witness :
  exists w1,
    replace_image_index 0 (Some "/cd/Disk Two.cue"%string) two_images = Return true w1 /\
    get_image_label 0 9 w1
    = Return (true, ["D"; "i"; "s"; "k"; " "; "T"; "w"; "o"; zero]%char) w1.
Proof.
  destruct (label_after_replace two_images 0 "/cd/Disk Two.cue" 9)
    as (w1 & label & Hrun & Hlabel & _);
    [vm_compute; split; [discriminate | reflexivity] | lia |].
  exists w1. split; [exact Hrun |]. rewrite Hlabel.
  vm_compute in Hrun. injection Hrun as <-.
  vm_compute in Hlabel. injection Hlabel as <-. reflexivity.
Defined.

(** *** The calls [mount] makes *)

Lemma mount_floppy_image_calls (drive_letter : ascii) (p : path) (w : world) :
  exists ls,
    mount_floppy_image drive_letter p w
    = Return (floppy_mountable (host w) p)
             (grown (floppy_calls (host w) drive_letter p) ls w).
Proof.
  unfold mount_floppy_image, floppy_mountable, floppy_calls. run_M.
  destruct (file_size (host w) p) as [sz|].
  - destruct (2880 * 1024 <? sz); cbn [negb andb].
    + eexists. rewrite <- (grown_nil w) at 1. collect. reflexivity.
    + cbn [host add_call]. destruct (created_successfully (host w) p); cbn [negb];
        collect; eexists; reflexivity.
  - eexists. rewrite <- (grown_nil w) at 1. collect. reflexivity.
Qed.

Lemma mount_cd_image_calls (drive_letter : ascii) (p : path) (w : world) :
  exists ls,
    mount_cd_image drive_letter p w
    = Return (optical_mountable (host w) drive_letter p)
             (grown (cd_calls (host w) drive_letter p) ls w).
Proof.
  unfold mount_cd_image, optical_mountable, cd_calls. run_M. cbn [host add_call].
  destruct (isoDrive_error (host w) drive_letter p) as [|q|q]; cbn [Z.eqb].
  - collect. eexists. reflexivity.
  - repeat case_match; collect; eexists; reflexivity.
  - collect. eexists. reflexivity.
Qed.

Lemma empty_caches_flushed (slots : list nat) (w : world) :
  exists flushed,
    empty_caches slots w = Return tt (grown (EmptyCache <$> flushed) [] w) /\
    sublist flushed slots.
Proof.
  revert w. induction slots as [|i rest IH]; intros w.
  - exists []. split; [cbn; unfold mret, M_ret; rewrite grown_nil; reflexivity |].
    constructor.
  - cbn [empty_caches]. run_M.
    destruct (Drives (host w) (calls w) (Z.of_nat i)).
    + destruct (IH (add_call (EmptyCache i) w)) as (fl & Heq & Hsub).
      rewrite Heq. collect. exists (i :: fl). split; [reflexivity |].
      constructor. exact Hsub.
    + destruct (IH w) as (fl & Heq & Hsub). rewrite Heq.
      exists fl. split; [reflexivity |]. constructor. exact Hsub.
Qed.

Lemma mount_finish_calls (drive_letter : ascii) (image : path) (ok : bool) (w : world) :
  exists flushed ls,
    mount_finish drive_letter image ok w
    = Return ok (set_images (images_after_mount image ok w)
                   (grown (finish_calls drive_letter ok flushed) ls w)) /\
    sublist flushed (seq 0 (DOS_DRIVES (host w))).
Proof.
  destruct w as [imgs cur ej h cs lg].
  unfold mount_finish, images_after_mount, finish_calls. destruct ok; cbn [negb andb].
  - destruct (empty_caches_flushed (seq 0 (DOS_DRIVES h)) (World imgs cur ej h cs lg))
      as (fl & Heq & Hsub).
    run_M. cbn [host]. rewrite Heq.
    unfold grown, add_call, add_log, set_images, get_num_images.
    cbn [images current_index is_ejected host calls log].
    exists fl.
    destruct (to_uint (Z.of_nat (length imgs)) =? 0).
    + destruct imgs as [|p0 rest]; cbn [app lookup list_lookup Z.to_nat];
        (eexists; split; [cbn; rewrite <- ?app_assoc; reflexivity | exact Hsub]).
    + eexists; split; [cbn; rewrite <- ?app_assoc; reflexivity | exact Hsub].
  - exists [], []. split; [| apply sublist_nil_l].
    unfold mret, M_ret, grown, set_images. cbn. rewrite !app_nil_r. reflexivity.
Qed.

(** [disk_control::mount] as a whole: its result and its calls follow the
    plan, up to which caches were there to flush. *)
Lemma mount_trace (lower_case : string -> string) (image : path) (w : world) :
  let plan := mount_plan lower_case (host w) image in
  exists flushed ls,
    mount lower_case image w
    = Return (plan_ok plan)
        (set_images (images_after_mount image (plan_ok plan) w)
           (grown (plan_calls plan flushed) ls w)) /\
    sublist flushed (seq 0 (DOS_DRIVES (host w))).
Proof.
  cbn zeta. unfold mount, mount_plan. run_M.
  destruct (SecureMode (host w)).
  { exists [], [secure_refusal]. split; [| apply sublist_nil_l].
    rewrite add_log_grown. reflexivity. }
  destruct (String.eqb (lower_case (extension image)) ".img").
  { set (w0 := add_log _ w).
    destruct (mount_floppy_image_calls "A" image w0) as (l1 & Heq). rewrite Heq.
    change (host w0) with (host w).
    destruct (mount_finish_calls "A" image (floppy_mountable (host w) image)
                (grown (floppy_calls (host w) "A" image) l1 w0))
      as (fl & l2 & Heq2 & Hsub).
    rewrite Heq2. subst w0.
    change (images_after_mount image ?ok (grown ?d ?l (add_log ?e w)))
      with (images_after_mount image ok w).
    collect. cbn [plan_ok plan_calls]. eauto. }
  destruct (String.eqb (lower_case (extension image)) ".iso"
            || String.eqb (lower_case (extension image)) ".cue").
  { set (w0 := add_log _ w).
    destruct (mount_cd_image_calls "D" image w0) as (l1 & Heq). rewrite Heq.
    change (host w0) with (host w).
    destruct (mount_finish_calls "D" image (optical_mountable (host w) "D" image)
                (grown (cd_calls (host w) "D" image) l1 w0))
      as (fl & l2 & Heq2 & Hsub).
    rewrite Heq2. subst w0.
    change (images_after_mount image ?ok (grown ?d ?l (add_log ?e w)))
      with (images_after_mount image ok w).
    collect. cbn [plan_ok plan_calls]. eauto. }
  exists [], [unsupported image]. split; [| apply sublist_nil_l].
  rewrite add_log_grown. reflexivity.
Qed.

(** X9. The size gate of [mount_floppy_image]: when the size of the image
    cannot be read, or exceeds 2880 KiB, it returns false with one error line
    and without any call to the emulator; an image of at most 2880 KiB (the
    bound included) gets its FAT drive object constructed, and the result is
    that object's success flag. *)
Theorem mount_floppy_image_size_gate (drive_letter : ascii) (p : path) (w : world) :
  (file_size (host w) p = None \/
   (exists sz, file_size (host w) p = Some sz /\ 2880 * 1024 < sz) ->
   exists e, mount_floppy_image drive_letter p w = Return false (add_log e w) /\
             is_error e) /\
  (forall sz, file_size (host w) p = Some sz -> sz <= 2880 * 1024 ->
   exists d ls,
     mount_floppy_image drive_letter p w
     = Return (created_successfully (host w) p) (grown (New (fatDrive p) :: d) ls w)).
Proof.
  split.
  - intros Hbad. unfold mount_floppy_image. run_M.
    destruct Hbad as [-> | (sz & -> & Hsz)].
    + eexists. split; reflexivity.
    + destruct (Z.ltb_spec (2880 * 1024) sz); [| lia]. eexists. split; reflexivity.
  - intros sz Hsz Hle.
    destruct (mount_floppy_image_calls drive_letter p w) as (ls & Heq).
    rewrite Heq. unfold floppy_mountable, floppy_calls. rewrite Hsz.
    destruct (Z.ltb_spec (2880 * 1024) sz); [lia |]. cbn [negb andb].
    destruct (created_successfully (host w) p); eexists _, _; reflexivity.
Qed.

Lemma mount_floppy_image_size_gate_witness :
  (exists e,
     mount_floppy_image "A" "/roms/hdd.img" (initial (sized_host (2880 * 1024 + 1)))
     = Return false (add_log e (initial (sized_host (2880 * 1024 + 1)))) /\
     is_error e) /\
  (exists d ls,
     mount_floppy_image "A" "/roms/fd.img" (initial (sized_host (2880 * 1024)))
     = Return true (grown (New (fatDrive "/roms/fd.img") :: d) ls
                      (initial (sized_host (2880 * 1024))))).
Proof.
  split.
  - apply (proj1 (mount_floppy_image_size_gate "A" "/roms/hdd.img"
                    (initial (sized_host (2880 * 1024 + 1))))).
    right. eexists. split; [reflexivity | lia].
  - apply (proj2 (mount_floppy_image_size_gate "A" "/roms/fd.img"
                    (initial (sized_host (2880 * 1024)))) (2880 * 1024));
      [reflexivity | lia].
Defined.

Lemma no_objects_flushed (fl : list nat) :
  constructed (EmptyCache <$> fl) = [] /\
  appended (EmptyCache <$> fl) = [] /\
  destroyed (EmptyCache <$> fl) = [].
Proof.
  induction fl as [|i fl (IH1 & IH2 & IH3)]; [repeat split |].
  repeat split; cbn; assumption.
Qed.

Lemma no_objects_finish (l : ascii) (ok : bool) (fl : list nat) :
  constructed (finish_calls l ok fl) = [] /\
  appended (finish_calls l ok fl) = [] /\
  destroyed (finish_calls l ok fl) = [].
Proof.
  unfold finish_calls, constructed, appended, destroyed.
  destruct ok; [| repeat split].
  rewrite !omap_app. destruct (no_objects_flushed fl) as (H1 & H2 & H3).
  unfold constructed, appended, destroyed in H1, H2, H3.
  rewrite H1, H2, H3. repeat split.
Qed.

(** Takes a mount plan apart into its cases. *)
Ltac plan_cases lower_case h image :=
  unfold mount_plan, floppy_mountable, floppy_calls, optical_mountable, cd_calls;
  destruct (SecureMode h);
  [ | destruct (String.eqb (lower_case (extension image)) ".img");
      [ destruct (file_size h image) as [sz|];
        [ destruct (2880 * 1024 <? sz); cbn [negb andb];
          [ | destruct (created_successfully h image) ] | ]
      | destruct (String.eqb (lower_case (extension image)) ".iso"
                  || String.eqb (lower_case (extension image)) ".cue");
        [ destruct (isoDrive_error h "D" image =? 0) | ] ] ].

Lemma plan_objects (lower_case : string -> string) (h : env) (image : path)
    (fl : list nat) :
  let plan := mount_plan lower_case h image in
  let d := plan_calls plan fl in
  constructed d = appended d ++ destroyed d /\
  (length (constructed d) <= 1)%nat /\
  (plan_ok plan = true <-> appended d <> []).
Proof.
  cbn zeta. plan_cases lower_case h image; cbn [plan_calls plan_ok];
    unfold constructed, appended, destroyed; rewrite ?omap_app;
    try (destruct (no_objects_finish "A" true fl) as (H1 & H2 & H3));
    try (destruct (no_objects_finish "D" true fl) as (H1' & H2' & H3'));
    unfold constructed, appended, destroyed in *;
    rewrite ?H1, ?H2, ?H3, ?H1', ?H2', ?H3'; cbn;
    (split; [reflexivity | split; [lia | split; (congruence || discriminate)]]).
Qed.

(** X10. [disk_control::mount] accounts for every drive object: it constructs
    at most one, and each one it constructs is either handed to the drive
    manager with [AppendDisk] or destroyed, never both and never neither; it
    returns true exactly when it appended one. *)
Theorem mount_objects_accounted (lower_case : string -> string) (image : path)
    (w : world) :
  exists ok w' d,
    mount lower_case image w = Return ok w' /\
    calls w' = calls w ++ d /\
    constructed d = appended d ++ destroyed d /\
    (length (constructed d) <= 1)%nat /\
    (ok = true <-> appended d <> []).
Proof.
  destruct (mount_trace lower_case image w) as (fl & ls & Heq & _).
  eexists _, _, _. split; [exact Heq |]. split; [reflexivity |].
  apply plan_objects.
Qed.

Lemma plan_failed (lower_case : string -> string) (h : env) (image : path)
    (fl : list nat) :
  plan_ok (mount_plan lower_case h image) = false ->
  Forall construct_only (plan_calls (mount_plan lower_case h image) fl).
Proof.
  plan_cases lower_case h image; cbn [plan_calls plan_ok finish_calls app];
    intros Hok; try discriminate; repeat constructor.
Qed.

Lemma plan_succeeded (lower_case : string -> string) (h : env) (image : path)
    (fl : list nat) :
  plan_ok (mount_plan lower_case h image) = true ->
  exists l d1,
    (l = "A"%char \/ l = "D"%char) /\
    plan_calls (mount_plan lower_case h image) fl
      = d1 ++ (EmptyCache <$> fl) ++ [CycleDisks (drive_index l) true] /\
    (exists o, appended d1 = [o]) /\
    InitializeDrive (drive_index l) ∈ d1 /\
    Forall (fun c => forall i, c <> EmptyCache i) d1.
Proof.
  plan_cases lower_case h image; cbn [plan_calls plan_ok finish_calls];
    intros Hok; try discriminate.
  - eexists "A"%char, _. split; [left; reflexivity |]. split; [reflexivity |].
    split; [eexists; reflexivity |]. split; [set_solver |].
    repeat constructor; discriminate.
  - eexists "D"%char, _. split; [right; reflexivity |]. split; [reflexivity |].
    split; [eexists; reflexivity |]. split; [set_solver |].
    repeat constructor; discriminate.
Qed.

(** X11. What [disk_control::mount] does to the registry: it never changes the
    current index or the tray flag; a mount that fails, or that happens while
    images are registered, leaves the image list alone; a successful mount on
    an empty registry registers the image as its only entry. *)
Theorem mount_registry (lower_case : string -> string) (image : path)
    (w w' : world) (ok : bool) :
  mount lower_case image w = Return ok w' ->
  current_index w' = current_index w /\
  is_ejected w' = is_ejected w /\
  (ok = false -> images w' = images w) /\
  (get_num_images w <> 0 -> images w' = images w) /\
  (ok = true -> images w = [] -> images w' = [image] /\ get_num_images w' = 1).
Proof.
  destruct (mount_returns lower_case image w) as (ok0 & d & ls & Heq).
  rewrite Heq. intros [= -> <-].
  cbn [images current_index is_ejected set_images grown]. unfold images_after_mount.
  split; [reflexivity |]. split; [reflexivity |]. split; [| split].
  - intros ->. reflexivity.
  - intros Hn. apply Z.eqb_neq in Hn. rewrite Hn, andb_false_r. reflexivity.
  - intros -> Hnil. unfold get_num_images. rewrite Hnil. cbn. auto.
Qed.

Lemma mount_registry_witness :
  exists w',
    mount ascii_lower_case "/roms/GAME.IMG" (initial (good_host false)) = Return true w' /\
    images w' = ["/roms/GAME.IMG"]%string /\
    get_num_images w' = 1 /\
    current_index w' = 0.
Proof.
  assert (Hrun : exists w', mount ascii_lower_case "/roms/GAME.IMG"
                              (initial (good_host false)) = Return true w')
    by (eexists; vm_compute; reflexivity).
  destruct Hrun as [w' Hrun]. exists w'. split; [exact Hrun |].
  destruct (mount_registry ascii_lower_case "/roms/GAME.IMG"
              (initial (good_host false)) w' true Hrun)
    as (Hcur & _ & _ & _ & Hfirst).
  destruct (Hfirst eq_refl eq_refl) as [Himgs Hn].
  split; [exact Himgs |]. split; [exact Hn | exact Hcur].
Defined.

(** X12. A failed [disk_control::mount] is harmless: all it may have done is
    select the CD interface and construct and destroy a drive object; it has
    not appended or initialised a drive, written the media-id table, set the
    DTA, flushed a cache or cycled the disks, and the registry is as before. *)
Theorem failed_mount_harmless (lower_case : string -> string) (image : path)
    (w w' : world) :
  mount lower_case image w = Return false w' ->
  exists d,
    calls w' = calls w ++ d /\
    Forall construct_only d /\
    registry w' = registry w.
Proof.
  destruct (mount_trace lower_case image w) as (fl & ls & Heq & _).
  rewrite Heq. intros [= Hok <-]. eexists. split; [reflexivity |].
  split; [apply plan_failed, Hok |]. rewrite Hok. reflexivity.
Qed.

Lemma failed_mount_harmless_witness :
  exists w',
    mount ascii_lower_case "/roms/bad.iso" (initial broken_host) = Return false w' /\
    calls w' = [MSCDEX_SetCDInterface CDROM_USE_SDL (-1);
                New (isoDrive "D" "/roms/bad.iso" 248);
                Delete (isoDrive "D" "/roms/bad.iso" 248)] /\
    registry w' = registry (initial broken_host).
Proof.
  assert (Hrun : exists w', mount ascii_lower_case "/roms/bad.iso"
                              (initial broken_host) = Return false w')
    by (eexists; vm_compute; reflexivity).
  destruct Hrun as [w' Hrun]. exists w'. split; [exact Hrun |].
  destruct (failed_mount_harmless ascii_lower_case "/roms/bad.iso"
              (initial broken_host) w' Hrun) as (d & Hcalls & _ & Hreg).
  split; [| exact Hreg].
  vm_compute in Hrun. injection Hrun as <-. reflexivity.
Defined.

(** X13. A successful [disk_control::mount] went the whole way: it used drive
    letter 'A' or 'D', appended exactly one drive object and initialised that
    drive, flushed caches only of slots of the drive table, and its last call
    is [CycleDisks(letter - 'A', true)]. *)
Theorem successful_mount_cycles (lower_case : string -> string) (image : path)
    (w w' : world) :
  mount lower_case image w = Return true w' ->
  exists l d,
    calls w' = calls w ++ d /\
    (l = "A"%char \/ l = "D"%char) /\
    (exists o, appended d = [o]) /\
    InitializeDrive (drive_index l) ∈ d /\
    (forall i, EmptyCache i ∈ d -> (i < DOS_DRIVES (host w))%nat) /\
    last d = Some (CycleDisks (drive_index l) true).
Proof.
  destruct (mount_trace lower_case image w) as (fl & ls & Heq & Hsub).
  rewrite Heq. intros [= Hok <-].
  destruct (plan_succeeded lower_case (host w) image fl Hok)
    as (l & d1 & Hl & Hd & [o Ho] & Hinit & Hno).
  exists l, (plan_calls (mount_plan lower_case (host w) image) fl).
  split; [reflexivity |]. split; [exact Hl |]. rewrite Hd.
  split; [| split; [| split]].
  - exists o. unfold appended in *. rewrite !omap_app, Ho.
    destruct (no_objects_flushed fl) as (_ & H2 & _). unfold appended in H2.
    rewrite H2. reflexivity.
  - apply elem_of_app. left. exact Hinit.
  - intros i Hi. apply elem_of_app in Hi as [Hi | Hi].
    + exfalso. rewrite Forall_forall in Hno. exact (Hno _ Hi i eq_refl).
    + apply elem_of_app in Hi as [Hi | Hi].
      * apply list_elem_of_fmap in Hi as (j & [= ->] & Hj).
        pose proof (elem_of_sublist _ _ _ Hj Hsub) as Hseq.
        apply elem_of_seq in Hseq. lia.
      * apply list_elem_of_singleton in Hi. discriminate.
  - rewrite app_assoc. apply last_snoc.
Qed.

Lemma successful_mount_cycles_witness :
  exists w',
    mount ascii_lower_case "/roms/disc.cue" (initial (good_host false)) = Return true w' /\
    last (calls w') = Some (CycleDisks 3 true) /\
    appended (calls w') = [isoDrive "D" "/roms/disc.cue" 248].
Proof.
  assert (Hrun : exists w', mount ascii_lower_case "/roms/disc.cue"
                              (initial (good_host false)) = Return true w')
    by (eexists; vm_compute; reflexivity).
  destruct Hrun as [w' Hrun]. exists w'. split; [exact Hrun |].
  destruct (successful_mount_cycles ascii_lower_case "/roms/disc.cue"
              (initial (good_host false)) w' Hrun) as (l & d & _).
  vm_compute in Hrun. injection Hrun as <-. split; reflexivity.
Defined.

(** *** Unmounting and the tray *)

Lemma unmount_drive_run (drive_letter : ascii) (w : world) :
  unmount_drive drive_letter w
  = Return true
      (grown (unmount_calls drive_letter
                (Drives (host w) (calls w) (drive_index drive_letter))) [] w).
Proof.
  unfold unmount_drive, unmount_calls. run_M.
  destruct (Drives (host w) (calls w) (drive_index drive_letter)); collect; reflexivity.
Qed.

Lemma supported_eqb (ext : string) :
  supported ext <->
  String.eqb ext ".img" || (String.eqb ext ".iso" || String.eqb ext ".cue") = true.
Proof.
  unfold supported. rewrite !orb_true_iff, !String.eqb_eq. reflexivity.
Qed.

(** X14. [unmount] returns true exactly when an image is registered and the
    lower-cased extension is ".img", ".iso" or ".cue".  It never changes the
    registry.  When it declines it makes no call; when it succeeds it calls
    [UnmountDrive] only if the slot of the drive letter ('A' for ".img", 'D'
    otherwise) holds a drive, then clears the slot and cycles the disks. *)
Theorem unmount_outcome (lower_case : string -> string) (p : path)
    (w w' : world) (ok : bool) :
  unmount lower_case p w = Return ok w' ->
  let ext := lower_case (extension p) in
  let l := letter_of ext in
  registry w' = registry w /\
  (ok = true <-> get_num_images w <> 0 /\ supported ext) /\
  (ok = false -> calls w' = calls w) /\
  (ok = true ->
   calls w' = calls w ++ unmount_calls l (Drives (host w) (calls w) (drive_index l))).
Proof.
  cbn zeta. rewrite supported_eqb. unfold unmount, letter_of. run_M.
  destruct (Z.eqb_spec (get_num_images w) 0) as [Hn|Hn].
  { intros [= <- <-]. split; [reflexivity |].
    split; [split; [discriminate | intros [H _]; contradiction] |].
    split; [reflexivity | discriminate]. }
  destruct (String.eqb (lower_case (extension p)) ".img"); cbn [orb].
  { rewrite unmount_drive_run. intros [= <- <-]. split; [reflexivity |].
    split; [split; auto |]. split; [discriminate |]. intros _.
    reflexivity. }
  destruct (String.eqb (lower_case (extension p)) ".iso"
            || String.eqb (lower_case (extension p)) ".cue").
  { rewrite unmount_drive_run. intros [= <- <-]. split; [reflexivity |].
    split; [split; auto |]. split; [discriminate |]. intros _.
    reflexivity. }
  intros [= <- <-]. split; [reflexivity |].
  split; [split; [discriminate | intros [_ H]; discriminate] |].
  split; [reflexivity | discriminate].
Qed.

Lemma unmount_outcome_witness :
  (exists w',
     unmount ascii_lower_case "/roms/b.iso" cd_in_drive = Return true w' /\
     calls w' = [UnmountDrive 3; Drives_assign_null 3; CycleDisks 3 true] /\
     registry w' = registry cd_in_drive) /\
  (exists w',
     unmount ascii_lower_case "/roms/a.img" cd_in_drive = Return true w' /\
     calls w' = [Drives_assign_null 0; CycleDisks 0 true]) /\
  (exists w',
     unmount ascii_lower_case "/roms/a.img" (initial (good_host false)) = Return false w' /\
     calls w' = []).
Proof.
  split; [| split].
  - assert (Hrun : exists w', unmount ascii_lower_case "/roms/b.iso" cd_in_drive
                              = Return true w') by (eexists; vm_compute; reflexivity).
    destruct Hrun as [w' Hrun]. exists w'. split; [exact Hrun |].
    destruct (unmount_outcome ascii_lower_case "/roms/b.iso" cd_in_drive w' true Hrun)
      as (Hreg & _ & _ & Hcalls).
    split; [exact (Hcalls eq_refl) | exact Hreg].
  - assert (Hrun : exists w', unmount ascii_lower_case "/roms/a.img" cd_in_drive
                              = Return true w') by (eexists; vm_compute; reflexivity).
    destruct Hrun as [w' Hrun]. exists w'. split; [exact Hrun |].
    destruct (unmount_outcome ascii_lower_case "/roms/a.img" cd_in_drive w' true Hrun)
      as (_ & _ & _ & Hcalls).
    exact (Hcalls eq_refl).
  - assert (Hrun : exists w', unmount ascii_lower_case "/roms/a.img"
                                (initial (good_host false)) = Return false w')
      by (eexists; vm_compute; reflexivity).
    destruct Hrun as [w' Hrun]. exists w'. split; [exact Hrun |].
    destruct (unmount_outcome ascii_lower_case "/roms/a.img"
                (initial (good_host false)) w' false Hrun) as (_ & _ & Hcalls & _).
    exact (Hcalls eq_refl).
Defined.

(** X15. Whatever [set_eject_state(ejected)] does (return true, return false
    or throw), it ends with the ejected flag equal to [ejected] and with the
    image list and the current index untouched; on an empty registry it
    returns true without any call to the emulator. *)
Theorem set_eject_state_registry (lower_case : string -> string) (ejected : bool)
    (w : world) :
  exists w',
    final_world (set_eject_state lower_case ejected w) = Some w' /\
    images w' = images w /\
    current_index w' = current_index w /\
    is_ejected w' = ejected /\
    (get_num_images w = 0 ->
     set_eject_state lower_case ejected w = Return true w' /\ calls w' = calls w).
Proof.
  unfold set_eject_state. run_M.
  set (w1 := add_log _ (set_is_ejected ejected w)).
  change (get_num_images w1) with (get_num_images w).
  destruct (Z.eqb_spec (get_num_images w) 0) as [Hn|Hn].
  { exists w1. cbn [final_world]. repeat split. }
  destruct ejected.
  - destruct (images w1 !! Z.to_nat (get_image_index w1)) as [p|].
    + destruct (unmount_returns lower_case p w1) as (ok & d & ls & Heq). rewrite Heq.
      eexists. cbn [final_world]. split; [reflexivity |].
      repeat (split; [reflexivity |]). intros H; contradiction.
    + exists w1. cbn [final_world]. repeat (split; [reflexivity |]).
      intros H; contradiction.
  - destruct (images w1 !! Z.to_nat (get_image_index w1)) as [p|].
    + destruct (mount_returns lower_case p w1) as (ok & d & ls & Heq). rewrite Heq.
      eexists. cbn [final_world]. split; [reflexivity |].
      cbn [images current_index is_ejected set_images grown].
      unfold images_after_mount. change (get_num_images w1) with (get_num_images w).
      apply Z.eqb_neq in Hn. rewrite Hn, andb_false_r.
      repeat (split; [reflexivity |]). intros H. apply Z.eqb_neq in Hn. contradiction.
    + exists w1. cbn [final_world]. repeat (split; [reflexivity |]).
      intros H; contradiction.
Qed.

(** X16. Secure mode and the tray: with secure mode on, [disk_control::mount]
    declines every image with the secure-mode error line alone, and closing
    the tray on a well-formed, non-empty registry returns false without any
    call to the emulator (the flag is set to "not ejected" all the same). *)
Theorem secure_mode_insert_declined (lower_case : string -> string) (w : world) :
  SecureMode (host w) = true ->
  (forall image, mount lower_case image w = Return false (add_log secure_refusal w)) /\
  (get_num_images w <> 0 -> well_formed w ->
   set_eject_state lower_case false w
   = Return false (add_log secure_refusal (add_log (tray false) (set_is_ejected false w)))).
Proof.
  intros Hsec. split; [intros image; apply mount_secure, Hsec |].
  intros Hn Hw. unfold set_eject_state. run_M.
  fold (tray false). set (w1 := add_log (tray false) (set_is_ejected false w)).
  change (get_num_images w1) with (get_num_images w).
  apply Z.eqb_neq in Hn. rewrite Hn. apply Z.eqb_neq in Hn.
  assert (Hw1 : well_formed w1)
    by (apply (well_formed_registry w); [reflexivity | reflexivity | exact Hw]).
  destruct (well_formed_lookup w1 Hw1 Hn) as [p Hp].
  unfold get_image_index. rewrite Hp. apply mount_secure, Hsec.
Qed.

Lemma secure_mode_insert_declined_witness :
  mount ascii_lower_case "/roms/a.img" secure_one_image
  = Return false (add_log secure_refusal secure_one_image) /\
  exists w',
    set_eject_state ascii_lower_case false secure_one_image = Return false w' /\
    calls w' = [].
Proof.
  destruct (secure_mode_insert_declined ascii_lower_case secure_one_image eq_refl)
    as [Hmount Htray].
  split; [apply Hmount |].
  eexists. split; [apply Htray |].
  - vm_compute. discriminate.
  - unfold well_formed, index_invariant, is_uint, UINT_MOD. cbn. lia.
  - reflexivity.
Defined.

(** X17. Swapping disks: after [set_image_index(i)] with a valid index,
    closing the tray with [set_eject_state(false)] mounts image [i] and no
    other: its result and its calls are those planned for image [i] (drive
    letter by extension, success by the image), the current index is [i], the
    image list is unchanged and the tray is closed. *)
Theorem swap_mounts_selected (lower_case : string -> string) (w : world)
    (i : Z) (p : path) :
  0 <= i < get_num_images w ->
  images w !! Z.to_nat i = Some p ->
  let plan := mount_plan lower_case (host w) p in
  exists w1 w2 flushed,
    set_image_index i w = Return true w1 /\
    set_eject_state lower_case false w1 = Return (plan_ok plan) w2 /\
    calls w2 = calls w ++ plan_calls plan flushed /\
    current_index w2 = i /\
    images w2 = images w /\
    is_ejected w2 = false.
Proof.
  intros [Hpos Hlt] Hp. cbn zeta. rewrite set_image_index_run.
  destruct (Z.leb_spec (get_num_images w) i); [lia |].
  pose (w1 := add_log (tray false) (set_is_ejected false (selected i w))).
  destruct (mount_trace lower_case p w1) as (fl & ls & Heq & _).
  change (host w1) with (host w) in Heq.
  eexists (selected i w), _, fl. split; [reflexivity |].
  unfold set_eject_state. run_M. fold (tray false). fold w1.
  change (get_num_images w1) with (get_num_images w).
  destruct (Z.eqb_spec (get_num_images w) 0) as [Hn|Hn]; [lia |].
  change (images w1) with (images w). change (get_image_index w1) with i.
  rewrite Hp, Heq.
  split; [reflexivity |].
  cbn [images current_index is_ejected calls set_images grown].
  unfold images_after_mount. change (get_num_images w1) with (get_num_images w).
  apply Z.eqb_neq in Hn. rewrite Hn, andb_false_r.
  repeat split.
Qed.

Lemma swap_mounts_selected_witness :
  exists w1 w2,
    set_image_index 1 two_images_good = Return true w1 /\
    set_eject_state ascii_lower_case false w1 = Return true w2 /\
    AppendDisk 3 (isoDrive "D" "/roms/b.iso" 248) ∈ calls w2 /\
    current_index w2 = 1.
Proof.
  destruct (swap_mounts_selected ascii_lower_case two_images_good 1 "/roms/b.iso")
    as (w1 & w2 & fl & Hsel & Htray & Hcalls & Hcur & _);
    [vm_compute; split; [discriminate | reflexivity] | reflexivity |].
  exists w1, w2. split; [exact Hsel |]. split; [exact Htray |].
  split; [| exact Hcur].
  rewrite Hcalls. apply elem_of_app. right. cbn. set_solver.
Defined.

(** X18. A zero-length buffer is not handled: for an index below the number
    of images, [get_image_label(index, label, 0)] copies nothing and then
    stores the terminator at [label[len - 1]] with [len] = 0, outside the
    buffer. *)
Theorem get_image_label_zero_length (w : world) (index : Z) :
  0 <= index < get_num_images w ->
  get_image_label index 0 w = Undefined.
Proof.
  intros [Hpos Hlt]. unfold get_image_label. run_M.
  destruct (Z.ltb_spec (get_num_images w) index); [lia |].
  pose proof (get_num_images_le_length w).
  destruct (lookup_lt_is_Some_2 (images w) (Z.to_nat index)) as [p Hp]; [lia |].
  rewrite Hp. reflexivity.
Qed.

Lemma get_image_label_zero_length_witness :
  get_image_label 0 0 two_images = Undefined.
Proof.
  apply (get_image_label_zero_length two_images 0).
  vm_compute. split; [discriminate | reflexivity].
Defined.

End DiskControlFacts.

(** ** Core options *)

Module CoreOptionsFacts.
Import CoreOptions.

Section Facts.

Context {D C V RC RD E : Type}.
Implicit Type self : t D C V RC RD E.

Lemma valid_not_null self (k : string) (p : ptr) :
  valid self -> options_map_ self !! k = Some p -> p <> nullptr.
Proof.
  intros Hv Hk ->. destruct (Hv k nullptr Hk) as [d Hd]. discriminate.
Qed.

(** C10. Both overloads of [CoreOptions::option(key)] return the null pointer
    exactly when the registry has no option under [key], return the pointer
    stored for [key] otherwise (which designates a stored definition), and
    leave the registry as it is. *)
Theorem option_lookup_spec self (key : string) :
  valid self ->
  (option_const key self = nullptr <-> options_map_ self !! key = None) /\
  (forall p, options_map_ self !! key = Some p ->
     option_const key self = p /\ is_Some (deref self p)) /\
  CoreOptions.option key self = (option_const key self, self).
Proof.
  intros Hv. unfold CoreOptions.option, option_const, find.
  split; [| split; [| reflexivity]].
  - destruct (options_map_ self !! key) as [p|] eqn:Hk.
    + split; [| discriminate].
      intros ->. exfalso. exact (valid_not_null self key nullptr Hv Hk eq_refl).
    + split; reflexivity.
  - intros p Hp. rewrite Hp. split; [reflexivity | exact (Hv key p Hp)].
Qed.

End Facts.

Lemma example_registry_valid : valid example_registry.
Proof.
  intros k p. unfold example_registry. cbn [options_map_].
  intros H. apply lookup_insert_Some in H as [[_ <-] | [_ H]]; [eexists; reflexivity |].
  apply lookup_insert_Some in H as [[_ <-] | [_ H]]; [eexists; reflexivity |].
  rewrite lookup_empty in H. discriminate.
Qed.

Lemma option_lookup_spec_witness :
  (option_const "midi_device" example_registry = nullptr <->
   options_map_ example_registry !! "midi_device"%string = None) /\
  (forall p, options_map_ example_registry !! "frameskip"%string = Some p ->
     option_const "frameskip" example_registry = p /\
     is_Some (deref example_registry p)) /\
  CoreOptions.option "frameskip" example_registry
  = (option_const "frameskip" example_registry, example_registry).
Proof.
  split; [| split].
  - apply (option_lookup_spec example_registry "midi_device" example_registry_valid).
  - apply (option_lookup_spec example_registry "frameskip" example_registry_valid).
  - apply (option_lookup_spec example_registry "frameskip" example_registry_valid).
Defined.

Section MoreFacts.

Context {D C V RC RD E : Type}.
Implicit Type self : t D C V RC RD E.

(** X19. [setEnvironmentCallback] touches nothing but the callback: every
    lookup with [option] gives the same pointer to the same definition as
    before, a valid registry stays valid, and of two calls the later one
    wins. *)
Theorem setEnvironmentCallback_frame self (cb cb' : E) (key : string) :
  option_const key (setEnvironmentCallback _ _ _ _ _ _ cb self) = option_const key self /\
  deref (setEnvironmentCallback _ _ _ _ _ _ cb self) (option_const key self)
    = deref self (option_const key self) /\
  (valid self -> valid (setEnvironmentCallback _ _ _ _ _ _ cb self)) /\
  env_cb_ _ _ _ _ _ _ (setEnvironmentCallback _ _ _ _ _ _ cb self) = cb /\
  setEnvironmentCallback _ _ _ _ _ _ cb' (setEnvironmentCallback _ _ _ _ _ _ cb self)
    = setEnvironmentCallback _ _ _ _ _ _ cb' self.
Proof.
  split; [reflexivity |]. split; [destruct (option_const key self); reflexivity |].
  split; [| split; reflexivity].
  intros Hv k p Hk. destruct (Hv k p Hk) as [d Hd].
  exists d. destruct p; exact Hd.
Qed.

End MoreFacts.

Lemma setEnvironmentCallback_frame_witness :
  valid (setEnvironmentCallback _ _ _ _ _ _ tt example_registry).
Proof.
  apply (setEnvironmentCallback_frame example_registry tt tt "frameskip").
  exact example_registry_valid.
Defined.

Example option_frameskip :
  option_const "frameskip" example_registry = Ptr 2 /\
  deref example_registry (Ptr 2) = Some "core_name_frameskip"%string /\
  option_const "midi_device" example_registry = nullptr.
Proof. repeat split; vm_compute; reflexivity. Qed.

End CoreOptionsFacts.

(** ** Thread switch *)

Module EmuThreadFacts.
Import EmuThread.

Lemma exec_app (tr1 tr2 : list event) (c : coordinator) :
  exec (tr1 ++ tr2) c =
  match exec tr1 c with Some c1 => exec tr2 c1 | None => None end.
Proof.
  revert c. induction tr1 as [|e tr1 IH]; intros c; cbn; [reflexivity |].
  destruct (step e c); [apply IH | reflexivity].
Qed.

Lemma exec_snoc (tr : list event) (e : event) (c c' : coordinator) :
  exec (tr ++ [e]) c = Some c' ->
  exists c0, exec tr c = Some c0 /\ step e c0 = Some c'.
Proof.
  rewrite exec_app. destruct (exec tr c) as [c0|]; [| discriminate].
  cbn. destruct (step e c0) as [c1|] eqn:Hs; [| discriminate].
  intros [= <-]. eauto.
Qed.

Lemma yields_app (tr1 tr2 : list event) : yields (tr1 ++ tr2) = yields tr1 ++ yields tr2.
Proof.
  induction tr1 as [|e tr1 IH]; [reflexivity |].
  destruct e; cbn; rewrite IH; reflexivity.
Qed.

Lemma wakes_app (tr1 tr2 : list event) : wakes (tr1 ++ tr2) = wakes tr1 ++ wakes tr2.
Proof.
  induction tr1 as [|e tr1 IH]; [reflexivity |].
  destruct e; cbn; rewrite IH; reflexivity.
Qed.

Lemma other_involutive (s : side) : other (other s) = s.
Proof. destruct s; reflexivity. Qed.

Lemma owns_inj (s1 s2 : side) : owns s1 = owns s2 -> s1 = s2.
Proof. destruct s1, s2; (reflexivity || discriminate). Qed.

Lemma run_state_eqb_eq (a b : run_state) : run_state_eqb a b = true <-> a = b.
Proof. destruct a, b; cbn; split; (reflexivity || discriminate). Qed.

Lemma turn_S (n : nat) : turn (S n) = other (turn n).
Proof.
  unfold turn. rewrite Nat.even_succ, <- Nat.negb_even.
  destruct (Nat.even n); reflexivity.
Qed.

Lemma alternating_snoc (s : side) (n : nat) :
  alternating s n ++ [if Nat.even n then s else other s] = alternating s (S n).
Proof.
  revert s. induction n as [|n IH]; intros s; [reflexivity |].
  change (s :: (alternating (other s) n ++ [if Nat.even (S n) then s else other s])
          = s :: alternating (other s) (S n)).
  rewrite <- (IH (other s)). f_equal. f_equal. f_equal.
  rewrite Nat.even_succ, <- Nat.negb_even, other_involutive.
  destruct (Nat.even n); reflexivity.
Qed.

Lemma alternating_Host_snoc (n : nat) :
  alternating Host n ++ [turn n] = alternating Host (S n).
Proof. apply alternating_snoc. Qed.

Lemma alternating_Emulation_snoc (n : nat) :
  alternating Emulation n ++ [turn (S n)] = alternating Emulation (S n).
Proof.
  rewrite turn_S. rewrite <- alternating_snoc. unfold turn.
  destruct (Nat.even n); reflexivity.
Qed.

Lemma activity_set_same (s : side) (a : activity) (c : coordinator) :
  activity_of s (set_activity s a c) = a.
Proof. destruct s; reflexivity. Qed.

Lemma activity_set_other (s : side) (a : activity) (c : coordinator) :
  activity_of (other s) (set_activity s a c) = activity_of (other s) c.
Proof. destruct s; reflexivity. Qed.

Lemma blocked_not_running (a : activity) : blocked a -> a <> Running.
Proof. intros [m ->]. discriminate. Qed.

(** A running thread is the one whose turn it is, and the other one waits. *)
Lemma running_is_turn (k j : nat) (c : coordinator) (s : side) :
  phase k j c -> activity_of s c = Running ->
  s = turn k /\ j = k /\ blocked (activity_of (other s) c) /\ observed c = [].
Proof.
  intros Hph Hrun. destruct Hph as [Hj Ht Hb Ho | Hk Hh He Ho | Hj Ht Hc Hh He Ho | Hj Ht Hc Hh He Ho].
  - destruct (decide (s = turn k)) as [-> | Hne]; [auto |].
    exfalso. assert (s = other (turn k)) as -> by (destruct s, (turn k); cbn; congruence).
    exact (blocked_not_running _ Hb Hrun).
  - exfalso. destruct s; cbn in Hrun;
      [exact (blocked_not_running _ Hh Hrun) | exact (blocked_not_running _ He Hrun)].
  - exfalso. destruct s; cbn in Hrun;
      [exact (blocked_not_running _ Hh Hrun) | congruence].
  - exfalso. destruct s; cbn in Hrun;
      [exact (blocked_not_running _ Hh Hrun) | congruence].
Qed.

Lemma owner_owns (c : coordinator) (s : side) : run c = owns s -> owner c = s.
Proof. unfold owner. intros ->. destruct s; reflexivity. Qed.

Lemma invariant_start (m : sync_mode) : invariant [] (session_start m).
Proof.
  repeat split. apply InTurn; cbn; [reflexivity | reflexivity | eexists; reflexivity | reflexivity].
Qed.

(** Every enabled step keeps the invariant. *)
Lemma step_invariant (tr : list event) (e : event) (c c' : coordinator) :
  invariant tr c -> step e c = Some c' -> invariant (tr ++ [e]) c'.
Proof.
  intros (Hy & Hw & Hrun & Hph) Hstep. unfold invariant.
  rewrite yields_app, wakes_app, !length_app.
  destruct e as [s | s | s | b | |]; cbn [step yields wakes length app] in *;
    rewrite ?Nat.add_0_r, ?app_nil_r.
  - (* Yield *)
    unfold switchThread_yield in Hstep.
    destruct (activity_of s c) eqn:Ha; try discriminate.
    injection Hstep as <-.
    destruct (running_is_turn _ _ c s Hph Ha) as (-> & Hj & Hb & Ho).
    replace (length (yields tr) + 1)%nat with (S (length (yields tr))) by lia.
    split; [rewrite Hy at 1; apply alternating_Host_snoc |].
    split; [exact Hw |].
    split; [rewrite turn_S; destruct (turn (length (yields tr))); reflexivity |].
    apply InHandoff; [lia | | | ].
    + destruct (turn (length (yields tr))); cbn in *; [eexists; reflexivity | exact Hb].
    + destruct (turn (length (yields tr))); cbn in *; [exact Hb | eexists; reflexivity].
    + destruct (turn (length (yields tr))); exact Ho.
  - (* Poll *)
    unfold switchThread_poll in Hstep.
    destruct (activity_of s c); try discriminate.
    destruct (run_state_eqb (run c) (owns s)); [discriminate |].
    injection Hstep as <-. auto.
  - (* Wake *)
    unfold switchThread_wake in Hstep.
    destruct (activity_of s c) eqn:Ha; try discriminate.
    destruct (run_state_eqb (run c) (owns s)) eqn:Hr; [| discriminate].
    apply run_state_eqb_eq in Hr. rewrite Hrun in Hr. apply owns_inj in Hr. subst s.
    assert (Hk : length (yields tr) = S (length (wakes tr)) /\
                 blocked (host c) /\ blocked (emu c) /\ observed c = []).
    { destruct Hph as [Hj Ht Hb Ho | Hk Hh He Ho | Hj Ht Hc Hh He Ho | Hj Ht Hc Hh He Ho].
      - congruence.
      - auto.
      - rewrite Ht in Ha. cbn in Ha. congruence.
      - rewrite Ht in Ha. cbn in Ha. congruence. }
    destruct Hk as (Hk & Hh & He & Ho).
    replace (length (wakes tr) + 1)%nat with (S (length (wakes tr))) by lia.
    split; [exact Hy |].
    split; [rewrite Hw at 1; rewrite Hk; apply alternating_Emulation_snoc |].
    destruct (is_emulation (turn (length (yields tr))) && cancel c) eqn:Hcancel;
      injection Hstep as <-.
    + apply andb_true_iff in Hcancel as [Hemu Hc].
      destruct (turn (length (yields tr))) eqn:Ht; [discriminate |]. cbn.
      split; [exact Hrun |].
      apply InUnwind; cbn; [lia | exact Ht | exact Hc | exact Hh | reflexivity | exact Ho].
    + split; [destruct (turn (length (yields tr))); exact Hrun |].
      apply InTurn; [lia | apply activity_set_same | | ].
      * rewrite activity_set_other.
        destruct (turn (length (yields tr))); cbn; assumption.
      * destruct (turn (length (yields tr))); exact Ho.
  - (* UseSpinlock *)
    injection Hstep as <-. repeat split; try assumption.
    destruct Hph; [apply InTurn | apply InHandoff | apply InUnwind | apply InExit];
      try assumption;
      destruct (turn (length (yields tr))); assumption.
  - (* RequestCancel *)
    injection Hstep as <-. repeat split; try assumption.
    destruct Hph; [apply InTurn | apply InHandoff | apply InUnwind | apply InExit];
      try assumption; try reflexivity;
      destruct (turn (length (yields tr))); assumption.
  - (* Catch *)
    unfold entry_catch in Hstep.
    destruct (emu c) as [| m | sig |] eqn:Hemu; try discriminate.
    injection Hstep as <-.
    destruct Hph as [Hj Ht Hb Ho | Hk Hh [m He] Ho | Hj Ht Hc Hh He Ho | Hj Ht Hc Hh He Ho];
      try congruence.
    + exfalso. destruct (turn (length (yields tr))); cbn in *;
        [destruct Hb as [m Hb]; congruence | congruence].
    + rewrite Hemu in He. injection He as ->.
      split; [exact Hy |]. split; [exact Hw |]. split; [exact Hrun |].
      apply InExit; cbn; [exact Hj | exact Ht | exact Hc | exact Hh | reflexivity |].
      rewrite Ho. reflexivity.
Qed.

Lemma exec_invariant (m : sync_mode) (tr : list event) (c : coordinator) :
  exec tr (session_start m) = Some c -> invariant tr c.
Proof.
  revert c. induction tr as [|e tr IH] using rev_ind; intros c Hexec.
  - injection Hexec as <-. apply invariant_start.
  - apply exec_snoc in Hexec as (c0 & Hexec & Hstep).
    exact (step_invariant tr e c0 c (IH c0 Hexec) Hstep).
Qed.

(** C1. Along every run of the session, under either wait strategy and
    with the strategy switched at any time: the two sides never run at once, a
    running side is the owner, the calls of [switchThread()] alternate
    Host, Emulation, Host, ..., the wake-ups alternate Emulation, Host, ...,
    every handoff is taken up before the next call is made, and while no
    cancellation is requested the owning side can always go on. *)
Theorem switchThread_alternates (m : sync_mode) (tr : list event) (c : coordinator) :
  exec tr (session_start m) = Some c ->
  ~ (host c = Running /\ emu c = Running) /\
  (forall s, activity_of s c = Running -> run c = owns s) /\
  yields tr = alternating Host (length (yields tr)) /\
  wakes tr = alternating Emulation (length (wakes tr)) /\
  (length (wakes tr) <= length (yields tr) <= S (length (wakes tr)))%nat /\
  (cancel c = false -> can_proceed c).
Proof.
  intros Hexec. destruct (exec_invariant m tr c Hexec) as (Hy & Hw & Hrun & Hph).
  split; [| split; [| split; [exact Hy | split; [exact Hw | split]]]].
  - intros [Hh He].
    destruct (running_is_turn _ _ c Host Hph Hh) as (_ & _ & Hb & _).
    exact (blocked_not_running _ Hb He).
  - intros s Hs.
    destruct (running_is_turn _ _ c s Hph Hs) as (-> & _). exact Hrun.
  - destruct Hph; lia.
  - intros Hc. unfold can_proceed. rewrite (owner_owns c _ Hrun).
    destruct Hph as [Hj Ht Hb Ho | Hk Hh He Ho | Hj Ht Hc' Hh He Ho | Hj Ht Hc' Hh He Ho];
      try congruence.
    + left. exact Ht.
    + right. cbn [step]. unfold switchThread_wake.
      assert (Hb : blocked (activity_of (turn (length (yields tr))) c))
        by (destruct (turn (length (yields tr))); assumption).
      destruct Hb as [how ->].
      rewrite (proj2 (run_state_eqb_eq _ _) Hrun).
      destruct (is_emulation _ && cancel c); eauto.
Qed.

Lemma switchThread_alternates_witness :
  exists c,
    exec one_frame (session_start ConditionWait) = Some c /\
    ~ (host c = Running /\ emu c = Running) /\
    yields one_frame = [Host; Emulation] /\
    wakes one_frame = [Emulation; Host] /\
    can_proceed c.
Proof.
  eexists. split; [vm_compute; reflexivity |].
  destruct (switchThread_alternates ConditionWait one_frame _ eq_refl)
    as (Hex & _ & Hy & Hw & _ & Hgo).
  split; [exact Hex |]. split; [exact Hy |]. split; [exact Hw |].
  apply Hgo. reflexivity.
Defined.

(** Any number of handoffs can be made: the session never gets stuck. *)
Lemma ping_pong_runs (n : nat) (s : side) (c : coordinator) :
  activity_of s c = Running ->
  blocked (activity_of (other s) c) ->
  cancel c = false ->
  exists c',
    exec (ping_pong s n) c = Some c' /\
    yields (ping_pong s n) = alternating s n /\
    cancel c' = false.
Proof.
  revert s c. induction n as [|n IH]; intros s c Hs Ho Hc.
  - exists c. auto.
  - cbn [ping_pong exec step yields alternating].
    unfold switchThread_yield. rewrite Hs.
    unfold switchThread_wake. rewrite activity_set_other.
    destruct Ho as [how Ho].
    assert (Hoth : activity_of (other s) (set_run (owns (other s)) c) = Blocked how)
      by (destruct s; exact Ho).
    rewrite Hoth.
    assert (Hrun : run (set_activity s (Blocked (mode c)) (set_run (owns (other s)) c))
                   = owns (other s)) by (destruct s; reflexivity).
    rewrite (proj2 (run_state_eqb_eq _ _) Hrun).
    assert (Hcancel : cancel (set_activity s (Blocked (mode c)) (set_run (owns (other s)) c))
                      = false) by (destruct s; exact Hc).
    rewrite Hcancel, andb_false_r.
    destruct (IH (other s)
                (set_activity (other s) Running
                   (set_activity s (Blocked (mode c)) (set_run (owns (other s)) c))))
      as (c' & Hexec & Hy & Hc').
    + apply activity_set_same.
    + rewrite other_involutive. destruct s; eexists; reflexivity.
    + destruct s; exact Hc.
    + exists c'. rewrite Hexec, Hy. auto.
Qed.

Lemma handoffs_possible (n : nat) (m : sync_mode) :
  exists c,
    exec (ping_pong Host n) (session_start m) = Some c /\
    yields (ping_pong Host n) = alternating Host n.
Proof.
  destruct (ping_pong_runs n Host (session_start m)) as (c & Hexec & Hy & _);
    [reflexivity | eexists; reflexivity | reflexivity |].
  eauto.
Qed.

Lemma cancel_sticky_step (e : event) (c c' : coordinator) :
  step e c = Some c' -> cancel c = true -> cancel c' = true.
Proof.
  destruct e as [s | s | s | b | |]; cbn [step];
    unfold switchThread_yield, switchThread_poll, switchThread_wake, entry_catch.
  - destruct (activity_of s c); try discriminate. intros [= <-]. destruct s; auto.
  - destruct (activity_of s c); try discriminate.
    destruct (run_state_eqb _ _); [discriminate |]. intros [= <-]. auto.
  - destruct (activity_of s c); try discriminate.
    destruct (run_state_eqb _ _); [| discriminate].
    destruct (is_emulation s && cancel c); intros [= <-]; destruct s; auto.
  - intros [= <-]. auto.
  - intros [= <-]. auto.
  - destruct (emu c); try discriminate. intros [= <-]. auto.
Qed.

(** The cancellation token is single-shot: once set it stays set. *)
Lemma cancel_sticky (tr : list event) (c c' : coordinator) :
  exec tr c = Some c' -> cancel c = true -> cancel c' = true.
Proof.
  revert c. induction tr as [|e tr IH]; intros c; cbn [exec].
  - intros [= <-]. auto.
  - destruct (step e c) as [c1|] eqn:Hs; [| discriminate].
    intros Hexec Hc. exact (IH c1 Hexec (cancel_sticky_step e c c1 Hs Hc)).
Qed.

(** C2. Along every run of the session: a [switchThread()] on the
    emulation side that finds its turn after the cancellation token was set
    raises [EmuThreadCanceled] and does not return; a signal that travels up
    the emulation thread is [EmuThreadCanceled] and the entry function can
    catch it; and what the entry function has caught is that one signal once
    the thread has exited, and nothing before. *)
Theorem cancellation_observed_once (m : sync_mode) (tr : list event) (c : coordinator) :
  exec tr (session_start m) = Some c ->
  (forall tr1 tr2, tr = tr1 ++ RequestCancel :: tr2 ++ [Wake Emulation] ->
     emu c = Unwinding EmuThreadCanceled) /\
  (forall sig, emu c = Unwinding sig ->
     sig = EmuThreadCanceled /\
     exists c', step Catch c = Some c' /\ emu c' = Exited /\
                observed c' = [EmuThreadCanceled]) /\
  (emu c = Exited -> observed c = [EmuThreadCanceled]) /\
  (emu c <> Exited -> observed c = []).
Proof.
  intros Hexec. pose proof (exec_invariant m tr c Hexec) as (_ & _ & _ & Hph).
  split; [| split; [| split]].
  - intros tr1 tr2 ->. rewrite exec_app in Hexec.
    destruct (exec tr1 (session_start m)) as [c1|]; [| discriminate].
    cbn [exec step] in Hexec.
    apply exec_snoc in Hexec as (c0 & Hexec & Hstep).
    pose proof (cancel_sticky tr2 _ c0 Hexec eq_refl) as Hc.
    cbn [step] in Hstep. unfold switchThread_wake in Hstep.
    destruct (activity_of Emulation c0); try discriminate.
    destruct (run_state_eqb _ _); [| discriminate].
    rewrite Hc in Hstep. injection Hstep as <-. reflexivity.
  - intros sig Hsig.
    destruct Hph as [Hj Ht Hb Ho | Hk Hh [how He] Ho | Hj Ht Hc Hh He Ho | Hj Ht Hc Hh He Ho];
      try congruence.
    + exfalso. destruct (turn (length (yields tr))); cbn in *;
        [destruct Hb as [how Hb] |]; congruence.
    + rewrite Hsig in He. injection He as ->. split; [reflexivity |].
      cbn [step]. unfold entry_catch. rewrite Hsig, Ho.
      eexists. split; [reflexivity |]. split; reflexivity.
  - intros Hex.
    destruct Hph as [Hj Ht Hb Ho | Hk Hh [how He] Ho | Hj Ht Hc Hh He Ho | Hj Ht Hc Hh He Ho];
      try congruence.
    exfalso. destruct (turn (length (yields tr))); cbn in *;
      [destruct Hb as [how Hb] |]; congruence.
  - intros Hnex. destruct Hph; congruence.
Qed.

Lemma cancellation_observed_once_witness :
  (exists c,
     exec cancel_session (session_start SpinWait) = Some c /\
     emu c = Unwinding EmuThreadCanceled /\
     observed c = []) /\
  (exists c,
     exec shutdown_session (session_start SpinWait) = Some c /\
     emu c = Exited /\
     observed c = [EmuThreadCanceled]).
Proof.
  split.
  - eexists. split; [vm_compute; reflexivity |].
    destruct (cancellation_observed_once SpinWait cancel_session _ eq_refl)
      as (Hraise & _ & _ & Hnone).
    split; [| apply Hnone; discriminate].
    apply (Hraise one_frame [Yield Host]). reflexivity.
  - eexists. split; [vm_compute; reflexivity |].
    destruct (cancellation_observed_once SpinWait shutdown_session _ eq_refl)
      as (_ & _ & Hone & _).
    split; [reflexivity | apply Hone; reflexivity].
Defined.

End EmuThreadFacts.
